(** * rss-translated-feeds: the fetch / extract / translate / cache / assemble
      pipeline of [scripts/translate_rss.py], embedded in Rocq.

    Python values are modelled as follows.
    - [str] is a list of Unicode code points (each an [N]); [len], slicing and
      [strip] therefore count code points, as Python does.
    - [bytes] is a list of octets (each an [N] below 256).
    - the two SQLite tables are finite maps keyed by their primary key.
    - the libraries the script calls (requests, feedparser, BeautifulSoup,
      dateutil, the translation backend, the clock) are fields of a [World]
      record; the script's own logic is written out. *)

From Stdlib Require Import ZArith NArith List Ascii String Lia Bool.
From stdpp Require Import base option list gmap.
Import ListNotations.

Local Open Scope N_scope.

(** ** Python strings *)

Abbreviation str := (list N).
Abbreviation bytes := (list N).

(** A source literal made of ASCII characters only. *)
Definition lit (s : string) : str :=
  List.map N_of_ascii (list_ascii_of_string s).

(** The truth value of a string: [bool(s)]. *)
Definition truthy (s : str) : bool :=
  match s with [] => false | _ :: _ => true end.

(** [x or ""] for an attribute that may be absent ([getattr(e, a, "")]). *)
Definition or_empty (o : option str) : str :=
  match o with Some s => s | None => [] end.

(** [len(s)] as a Python integer. *)
Definition len (s : str) : Z := Z.of_nat (length s).

(** [s[:j]]: a negative bound counts from the end, and bounds are clamped. *)
Definition slice_to (s : str) (j : Z) : str :=
  if (j <? 0)%Z then firstn (Z.to_nat (len s + j)) s
  else firstn (Z.to_nat j) s.

(** [s[i:]]: a negative bound counts from the end, and bounds are clamped. *)
Definition slice_from (s : str) (i : Z) : str :=
  if (i <? 0)%Z then skipn (Z.to_nat (len s + i)) s
  else skipn (Z.to_nat i) s.

(** [str.isspace] on one code point (the characters [str.strip()] removes). *)
Definition isspace (c : N) : bool :=
  ((0x09 <=? c) && (c <=? 0x0D)) || ((0x1C <=? c) && (c <=? 0x20))
  || (c =? 0x85) || (c =? 0xA0) || (c =? 0x1680)
  || ((0x2000 <=? c) && (c <=? 0x200A))
  || (c =? 0x2028) || (c =? 0x2029) || (c =? 0x202F) || (c =? 0x205F)
  || (c =? 0x3000).

Fixpoint lstrip (s : str) : str :=
  match s with
  | c :: s' => if isspace c then lstrip s' else s
  | [] => []
  end.

Definition rstrip (s : str) : str := rev (lstrip (rev s)).

(** [s.strip()] *)
Definition strip (s : str) : str := rstrip (lstrip s).

(** [s.replace(old, new)] where [old] is a single character. *)
Definition replace1 (old : N) (new : str) (s : str) : str :=
  flat_map (fun c => if c =? old then new else [c]) s.

(** [sep.join(parts)] *)
Fixpoint join (sep : str) (parts : list str) : str :=
  match parts with
  | [] => []
  | [p] => p
  | p :: rest => p ++ sep ++ join sep rest
  end.

(** [s.encode("utf-8", errors="ignore")]: lone surrogates cannot be encoded
    and are dropped. *)
Definition utf8_char (c : N) : bytes :=
  if c <? 0x80 then [c]
  else if c <? 0x800 then [0xC0 + c / 64; 0x80 + c mod 64]
  else if (0xD800 <=? c) && (c <=? 0xDFFF) then []
  else if c <? 0x10000 then
    [0xE0 + c / 4096; 0x80 + (c / 64) mod 64; 0x80 + c mod 64]
  else
    [0xF0 + c / 262144; 0x80 + (c / 4096) mod 64;
     0x80 + (c / 64) mod 64; 0x80 + c mod 64].

Definition encode_utf8_ignore (s : str) : bytes := flat_map utf8_char s.

(** ** hashlib.sha1 (FIPS 180-4), on 32-bit words held in [N] *)

Module SHA1.

Definition w32 (x : N) : N := x mod 2 ^ 32.

Definition rotl (n x : N) : N :=
  w32 (N.lor (N.shiftl x n) (N.shiftr x (32 - n))).

Definition be_bytes (width : nat) (x : N) : bytes :=
  List.map (fun i => (x / 2 ^ (8 * N.of_nat i)) mod 256) (rev (seq 0 width)).

Definition be_word (bs : bytes) : N :=
  fold_left (fun acc b => acc * 256 + b) bs 0.

(** Message padding: a 1 bit, zeros up to 56 mod 64, the bit length. *)
Definition pad (msg : bytes) : bytes :=
  let l := length msg in
  let zeros := ((119 - l mod 64) mod 64)%nat in
  msg ++ [0x80] ++ repeat 0 zeros ++ be_bytes 8 (8 * N.of_nat l).

Definition blocks (msg : bytes) : list bytes :=
  List.map (fun i => firstn 64 (skipn (64 * i) msg))
           (seq 0 (length msg / 64)).

Definition words (block : bytes) : list N :=
  List.map (fun i => be_word (firstn 4 (skipn (4 * i) block))) (seq 0 16).

Definition schedule (block : bytes) : list N :=
  fold_left
    (fun w i =>
       w ++ [rotl 1 (N.lxor (N.lxor (nth (i - 3) w 0) (nth (i - 8) w 0))
                            (N.lxor (nth (i - 14) w 0) (nth (i - 16) w 0)))])
    (seq 16 64) (words block).

Definition state : Type := N * N * N * N * N.

Definition init : state :=
  (0x67452301, 0xEFCDAB89, 0x98BADCFE, 0x10325476, 0xC3D2E1F0).

Definition round (s : state) (tw : nat * N) : state :=
  let '(a, b, c, d, e) := s in
  let '(t, w) := tw in
  let '(f, k) :=
    if (t <? 20)%nat then
      (N.lor (N.land b c) (N.ldiff d b), 0x5A827999)
    else if (t <? 40)%nat then
      (N.lxor (N.lxor b c) d, 0x6ED9EBA1)
    else if (t <? 60)%nat then
      (N.lor (N.lor (N.land b c) (N.land b d)) (N.land c d), 0x8F1BBCDC)
    else
      (N.lxor (N.lxor b c) d, 0xCA62C1D6) in
  (w32 (rotl 5 a + f + e + k + w), a, rotl 30 b, c, d).

Definition compress (h : state) (block : bytes) : state :=
  let '(h0, h1, h2, h3, h4) := h in
  let '(a, b, c, d, e) :=
    fold_left round (combine (seq 0 80) (schedule block)) h in
  (w32 (h0 + a), w32 (h1 + b), w32 (h2 + c), w32 (h3 + d), w32 (h4 + e)).

Definition digest (msg : bytes) : state :=
  fold_left compress (blocks (pad msg)) init.

Definition hex_digit (n : N) : N := if n <? 10 then 48 + n else 87 + n.

Definition hex_word (x : N) : str :=
  List.map (fun i => hex_digit ((x / 16 ^ N.of_nat i) mod 16))
           (rev (seq 0 8)).

Definition hexdigest (msg : bytes) : str :=
  let '(h0, h1, h2, h3, h4) := digest msg in
  hex_word h0 ++ hex_word h1 ++ hex_word h2 ++ hex_word h3 ++ hex_word h4.

End SHA1.

(** [sha1(s)] of the script. *)
Definition sha1 (s : str) : str := SHA1.hexdigest (encode_utf8_ignore s).

(** ** Python floats: IEEE 754 binary64 values [mant * 2 ^ expo]

    Only what [int(max_chars * 0.7)] needs: conversion from an integer,
    multiplication and truncation, each rounded to nearest with ties to even
    at 53 bits of precision.  The exponent is not bounded (no integer the
    script multiplies comes near 2^1024, where CPython raises). *)

Module Float64.

Record t : Type := mk { mant : Z; expo : Z }.

Definition round53 (m e : Z) : t :=
  let k := Z.max 0 (Z.log2 (Z.abs m) + 1 - 53) in
  let q := (Z.abs m / 2 ^ k)%Z in
  let r := (Z.abs m mod 2 ^ k)%Z in
  let half := (2 ^ (k - 1))%Z in
  let up := negb (k =? 0)%Z
            && ((half <? r)%Z || ((r =? half)%Z && Z.odd q)) in
  mk (Z.sgn m * (if up then q + 1 else q)) (e + k).

(** [float(n)] *)
Definition of_int (n : Z) : t := round53 n 0.

(** [x * y] *)
Definition mul (x y : t) : t :=
  round53 (mant x * mant y) (expo x + expo y).

(** [int(x)]: truncation toward zero. *)
Definition to_int (x : t) : Z :=
  if (0 <=? expo x)%Z then (mant x * 2 ^ expo x)%Z
  else Z.quot (mant x) (2 ^ (- expo x)).

(** The literals [0.7] and [0.3] (0x3FE6666666666666, 0x3FD3333333333333). *)
Definition c0_7 : t := mk 0x16666666666666 (-53).
Definition c0_3 : t := mk 0x13333333333333 (-54).

End Float64.

(** [int(n * 0.7)] and [int(n * 0.3)] *)
Definition int_mul_0_7 (n : Z) : Z :=
  Float64.to_int (Float64.mul (Float64.of_int n) Float64.c0_7).
Definition int_mul_0_3 (n : Z) : Z :=
  Float64.to_int (Float64.mul (Float64.of_int n) Float64.c0_3).

(** ** truncate_for_translation *)

Definition NL : N := 10.

Definition TRUNCATED_DIVIDER : str :=
  [NL; NL] ++ lit "[...TRUNCATED...]" ++ [NL; NL].

Definition truncate_for_translation (text : str) (max_chars : Z) : str :=
  let text := strip text in
  if (len text <=? max_chars)%Z then text
  else
    let head := slice_to text (int_mul_0_7 max_chars) in
    let tail := slice_from text (- int_mul_0_3 max_chars) in
    head ++ TRUNCATED_DIVIDER ++ tail.

(** ** The cache database (load_db, cache_get, cache_put, mark_seen, is_seen) *)

Record CacheRecord : Type := {
  created_at : str;
  translator : str;
  target_lang : str;
  source_len : Z;
  translated : str;
}.

(** Table [translated_cache], keyed by [key]; table [seen_items], keyed by
    [item_id] and holding [first_seen]. *)
Record DB : Type := {
  translated_cache : gmap str CacheRecord;
  seen_items : gmap str str;
}.

(** A database file that does not exist yet: both tables empty. *)
Definition load_db_fresh : DB :=
  {| translated_cache := ∅; seen_items := ∅ |}.

Definition cache_get (conn : DB) (key : str) : option str :=
  translated <$> translated_cache conn !! key.

(** INSERT OR REPLACE *)
Definition cache_put (now : str) (conn : DB) (key translator target_lang
    source_text translated : str) : DB :=
  {| translated_cache :=
       <[key := {| created_at := now; translator := translator;
                   target_lang := target_lang;
                   source_len := len source_text;
                   translated := translated |}]> (translated_cache conn);
     seen_items := seen_items conn |}.

(** INSERT OR IGNORE *)
Definition mark_seen (now : str) (conn : DB) (item_id : str) : DB :=
  {| translated_cache := translated_cache conn;
     seen_items :=
       match seen_items conn !! item_id with
       | Some _ => seen_items conn
       | None => <[item_id := now]> (seen_items conn)
       end |}.

Definition is_seen (conn : DB) (item_id : str) : bool :=
  bool_decide (is_Some (seen_items conn !! item_id)).

(** ** The feed writer (build_rss) *)

Definition AMP : N := 38.
Definition LT : N := 60.
Definition GT : N := 62.

Definition esc (s : str) : str :=
  replace1 GT (lit "&gt;")
    (replace1 LT (lit "&lt;") (replace1 AMP (lit "&amp;") s)).

(** [it.get(k, "")] on an item dictionary. *)
Definition item_get (it : gmap str str) (k : string) : str :=
  default [] (it !! lit k).

Definition QUOTE : N := 34.

Definition RSS_OPEN : str :=
  lit "<rss version=" ++ [QUOTE] ++ lit "2.0" ++ [QUOTE] ++ lit ">".

Definition GUID_OPEN : str :=
  lit "<guid isPermaLink=" ++ [QUOTE] ++ lit "false" ++ [QUOTE] ++ lit ">".

Definition XML_DECLARATION : str :=
  lit "<?xml version=" ++ [QUOTE] ++ lit "1.0" ++ [QUOTE] ++ lit " encoding="
  ++ [QUOTE] ++ lit "UTF-8" ++ [QUOTE] ++ lit "?>".

Definition item_lines (it : gmap str str) : list str :=
  [lit "<item>";
   lit "<title>" ++ esc (item_get it "title") ++ lit "</title>";
   lit "<link>" ++ esc (item_get it "link") ++ lit "</link>";
   GUID_OPEN ++ esc (item_get it "guid") ++ lit "</guid>"]
  ++ (if truthy (item_get it "pubDate")
      then [lit "<pubDate>" ++ esc (item_get it "pubDate") ++ lit "</pubDate>"]
      else [])
  ++ [lit "<description><![CDATA[" ++ item_get it "description"
        ++ lit "]]></description>";
      lit "</item>"].

(** [now] is [datetime.utcnow().strftime("%a, %d %b %Y %H:%M:%S +0000")]. *)
Definition build_rss (now : str) (feed_title : str)
    (items : list (gmap str str)) : str :=
  join [NL]
    ([XML_DECLARATION;
      RSS_OPEN;
      lit "<channel>";
      lit "<title>" ++ esc feed_title ++ lit "</title>";
      lit "<link></link>";
      lit "<description>" ++ esc feed_title ++ lit "</description>";
      lit "<lastBuildDate>" ++ now ++ lit "</lastBuildDate>"]
     ++ flat_map item_lines items
     ++ [lit "</channel></rss>"]).

(** ** The outside world

    What the script obtains from its libraries and from the network.  The two
    network calls may answer differently each time: they are given the events
    that happened before. *)

Inductive outcome (A : Type) : Type :=
| Returned (a : A)
| Raised.
Arguments Returned {A} a.
Arguments Raised {A}.

(** The part of a [requests.Response] that fetch_url reads; [text_as enc] is
    [r.text] once [r.encoding] has been set to [enc]. *)
Record Response : Type := {
  status_code : Z;
  encoding : option str;
  apparent_encoding : option str;
  text_as : option str -> str;
}.

(** A feedparser entry: every attribute may be missing. *)
Record Entry : Type := {
  e_id : option str;
  e_link : option str;
  e_title : option str;
  e_summary : option str;
  e_description : option str;
  e_published : option str;
  e_updated : option str;
}.

(** What a run does that the claims observe. *)
Inductive Event : Type :=
| EvFetch (url : str) (timeout : Z)
| EvExtract (html : str)
| EvTranslate (text : str) (target_lang : str).

Record World : Type := {
  (** [feedparser.parse(url).entries] *)
  feedparser_entries : str -> list Entry;
  (** [requests.get(url, headers={"User-Agent": ua}, timeout=timeout)] *)
  requests_get : list Event -> str -> str -> Z -> outcome Response;
  (** In [extract_main_text]: the text of the region BeautifulSoup selects
      ([article], else [main], else [body]) once script, style and noscript
      are removed, [get_text("\n", strip=True)]; [None] without a region. *)
  soup_region_text : str -> option str;
  (** [BeautifulSoup(raw_summary, "lxml").get_text(" ", strip=True)] *)
  soup_get_text : str -> str;
  (** [translator.translate(text, target_lang=target_lang)] *)
  translate : list Event -> str -> str -> str;
  (** [dateparser.parse(s).strftime("%a, %d %b %Y %H:%M:%S +0000")], [None]
      when it raises. *)
  dateparser_rfc822 : str -> option str;
  (** [datetime.utcnow().isoformat()] *)
  utcnow_isoformat : str;
  (** [datetime.utcnow().strftime("%a, %d %b %Y %H:%M:%S +0000")] *)
  utcnow_rfc822 : str;
  (** [str.upper] *)
  str_upper : str -> str;
}.

(** The settings main reads from the environment. *)
Record Config : Type := {
  translator_name : str;
  cfg_target_lang : str;
  cfg_timeout : Z;
  cfg_max_items : Z;
}.

Definition UA : str := lit "rss-translate/1.0 (+Feedly OPML pipeline)".

(** ** fetch_url and extract_main_text *)

Definition fetch_url (w : World) (past : list Event) (url : str)
    (timeout : Z) : option str :=
  match requests_get w past url UA timeout with
  | Raised => None
  | Returned r =>
      if (400 <=? status_code r)%Z then None
      else
        let enc :=
          match apparent_encoding r with
          | Some a => if truthy a then Some a else encoding r
          | None => encoding r
          end in
        Some (text_as r enc)
  end.

(** [re.sub(r"\n{3,}", "\n\n", text)]; [run] newlines are pending. *)
Definition flush_newlines (run : nat) : str :=
  repeat NL (if (3 <=? run)%nat then 2%nat else run).

Fixpoint collapse_newlines (run : nat) (s : str) : str :=
  match s with
  | [] => flush_newlines run
  | c :: s' =>
      if c =? NL then collapse_newlines (S run) s'
      else flush_newlines run ++ c :: collapse_newlines 0 s'
  end.

Definition extract_main_text (w : World) (html : str) : str :=
  match soup_region_text w html with
  | None => []
  | Some text => collapse_newlines 0 text
  end.

(** ** main: one entry, one feed, the feed list *)

Definition COLON : N := 58.

(** Line 256: the identity of an entry. *)
Definition entry_id (e : Entry) : str :=
  sha1 (or_empty (e_id e) ++ or_empty (e_link e) ++ or_empty (e_title e)).

(** Line 261 *)
Definition raw_summary (e : Entry) : str :=
  if truthy (or_empty (e_summary e)) then or_empty (e_summary e)
  else or_empty (e_description e).

(** Lines 262-272 *)
Definition pub_date (w : World) (e : Entry) : str :=
  if truthy (or_empty (e_published e)) then
    or_empty (dateparser_rfc822 w (or_empty (e_published e)))
  else if truthy (or_empty (e_updated e)) then
    or_empty (dateparser_rfc822 w (or_empty (e_updated e)))
  else [].

(** Lines 275-279: the article text and the events of getting it. *)
Definition fetch_article (w : World) (cfg : Config) (past : list Event)
    (link : str) : str * list Event :=
  if truthy link then
    let past' := past ++ [EvFetch link (cfg_timeout cfg)] in
    match fetch_url w past link (cfg_timeout cfg) with
    | Some html =>
        if truthy html
        then (extract_main_text w html, past' ++ [EvExtract html])
        else ([], past')
    | None => ([], past')
    end
  else ([], past).

(** Lines 282-284 *)
Definition choose_source_text (w : World) (article_text : str) (e : Entry)
    : str :=
  truncate_for_translation
    (if (400 <=? len (strip article_text))%Z then strip article_text
     else soup_get_text w (raw_summary e))
    12000.

(** Line 285 *)
Definition cache_key (translator_name target_lang source_text : str) : str :=
  sha1 (translator_name ++ [COLON] ++ target_lang ++ [COLON] ++ source_text).

(** Lines 287-292: the translation, the database and the events after. *)
Definition lookup_or_translate (w : World) (cfg : Config) (conn : DB)
    (past : list Event) (source_text : str) : str * DB * list Event :=
  let key := cache_key (translator_name cfg) (cfg_target_lang cfg) source_text in
  let cached := cache_get conn key in
  if truthy (or_empty cached) then (or_empty cached, conn, past)
  else
    let answer := translate w past source_text (cfg_target_lang cfg) in
    let translated := if truthy answer then answer else source_text in
    (translated,
     cache_put (utcnow_isoformat w) conn key (translator_name cfg)
       (cfg_target_lang cfg) source_text translated,
     past ++ [EvTranslate source_text (cfg_target_lang cfg)]).

(** Line 296 *)
Definition orig_snip (source_text : str) : str :=
  if (600 <? len source_text)%Z then slice_to source_text 600 ++ lit "..."
  else source_text.

Definition BR : str := lit "<br/>".

Definition DESC_TRANSLATED_OPEN : str := lit "<p><b>Translated:</b></p><p>".
Definition DESC_ORIGINAL_OPEN : str :=
  lit "<hr/><p><b>Original snippet:</b></p><p>".
Definition P_CLOSE : str := lit "</p>".

(** Lines 297-298 *)
Definition build_description (translated source_text : str) : str :=
  (DESC_TRANSLATED_OPEN ++ replace1 NL BR translated ++ P_CLOSE)
  ++ (DESC_ORIGINAL_OPEN ++ replace1 NL BR (orig_snip source_text) ++ P_CLOSE).

(** Lines 300-306 *)
Definition make_item (w : World) (cfg : Config) (e : Entry) (eid desc : str)
    : gmap str str :=
  <[lit "title" := lit "[" ++ str_upper w (cfg_target_lang cfg) ++ lit "] "
                   ++ or_empty (e_title e)]>
  (<[lit "link" := or_empty (e_link e)]>
  (<[lit "guid" := eid]>
  (<[lit "pubDate" := pub_date w e]>
  (<[lit "description" := desc]> ∅)))).

(** The body of the loop over entries (lines 255-307): the database and the
    events after it, and the item it appends, if any. *)
Definition process_entry (w : World) (cfg : Config) (conn : DB)
    (past : list Event) (e : Entry) : DB * list Event * option (gmap str str) :=
  let eid := entry_id e in
  if is_seen conn eid then (conn, past, None)
  else
    let '(article_text, past1) :=
      fetch_article w cfg past (or_empty (e_link e)) in
    let source_text := choose_source_text w article_text e in
    let '(translated, conn1, past2) :=
      lookup_or_translate w cfg conn past1 source_text in
    let desc := build_description translated source_text in
    (mark_seen (utcnow_isoformat w) conn1 eid, past2,
     Some (make_item w cfg e eid desc)).

(** The loop over the entries of one feed (lines 253-307). *)
Fixpoint process_entries (w : World) (cfg : Config) (conn : DB)
    (past : list Event) (entries : list Entry)
    : DB * list Event * list (gmap str str) :=
  match entries with
  | [] => (conn, past, [])
  | e :: rest =>
      let '(conn1, past1, it) := process_entry w cfg conn past e in
      let '(conn2, past2, items) := process_entries w cfg conn1 past1 rest in
      (conn2, past2, match it with Some i => i :: items | None => items end)
  end.

(** [parsed.entries[:max_items]] *)
Definition cap_entries (entries : list Entry) (max_items : Z) : list Entry :=
  if (max_items <? 0)%Z
  then firstn (Z.to_nat (Z.of_nat (length entries) + max_items)) entries
  else firstn (Z.to_nat max_items) entries.

(** Line 309; the arrow is U+2192. *)
Definition out_title (title target_lang : str) : str :=
  title ++ lit " (Translated " ++ [0x2192] ++ lit " " ++ target_lang ++ lit ")".

(** What one feed yields: its new items and the document written for it. *)
Record FeedOutput : Type := {
  out_feed : str * str;
  out_items : list (gmap str str);
  rss_xml : str;
}.

(** The body of the loop over feeds (lines 250-316). *)
Definition process_feed (w : World) (cfg : Config) (conn : DB)
    (past : list Event) (feed : str * str) : DB * list Event * FeedOutput :=
  let entries := cap_entries (feedparser_entries w (snd feed)) (cfg_max_items cfg) in
  let '(conn1, past1, items) := process_entries w cfg conn past entries in
  (conn1, past1,
   {| out_feed := feed; out_items := items;
      rss_xml := build_rss (utcnow_rfc822 w)
                   (out_title (fst feed) (cfg_target_lang cfg)) items |}).

(** The loop over feeds (line 249). *)
Fixpoint process_feeds (w : World) (cfg : Config) (conn : DB)
    (past : list Event) (feeds : list (str * str))
    : DB * list Event * list FeedOutput :=
  match feeds with
  | [] => (conn, past, [])
  | f :: rest =>
      let '(conn1, past1, o) := process_feed w cfg conn past f in
      let '(conn2, past2, os) := process_feeds w cfg conn1 past1 rest in
      (conn2, past2, o :: os)
  end.

(** One run of the script over a feed list, from a database. *)
Definition main (w : World) (cfg : Config) (conn : DB)
    (feeds : list (str * str)) : DB * list Event * list FeedOutput :=
  process_feeds w cfg conn [] feeds.

(** ** Notions the properties are stated with *)

(** A Unicode scalar value: a code point that is not a surrogate. *)
Definition scalar (c : N) : Prop :=
  c < 0x110000 /\ ~ (0xD800 <= c <= 0xDFFF).


(** What the identity of an entry is computed from. *)
Definition id_link_title (e : Entry) : str :=
  or_empty (e_id e) ++ or_empty (e_link e) ++ or_empty (e_title e).

(** The bytes the cache key is the digest of. *)
Definition cache_key_input (translator_name target_lang source_text : str)
    : bytes :=
  encode_utf8_ignore translator_name ++ [COLON]
  ++ encode_utf8_ignore target_lang ++ [COLON]
  ++ encode_utf8_ignore source_text.

(** The description main builds, written out (lines 297-298). *)
Definition description_of (translated_block original_block : str) : str :=
  DESC_TRANSLATED_OPEN ++ translated_block ++ P_CLOSE
  ++ DESC_ORIGINAL_OPEN ++ original_block ++ P_CLOSE.

(** The source text main translates for an entry that is not skipped, and the
    events up to the cache lookup. *)
Definition entry_source_text (w : World) (cfg : Config) (past : list Event)
    (e : Entry) : str :=
  choose_source_text w (fetch_article w cfg past (or_empty (e_link e))).1 e.

Definition entry_past (w : World) (cfg : Config) (past : list Event)
    (e : Entry) : list Event :=
  (fetch_article w cfg past (or_empty (e_link e))).2.

(** The cache key of a source text under a configuration. *)
Definition key_of (cfg : Config) (source_text : str) : str :=
  cache_key (translator_name cfg) (cfg_target_lang cfg) source_text.

(** A sample world for the examples: every request fails, the backend is
    down (it answers with the empty string), summaries hold no markup. *)
Definition offline_world (entries : str -> list Entry) : World :=
  {| feedparser_entries := entries;
     requests_get := fun _ _ _ _ => Raised;
     soup_region_text := fun _ => None;
     soup_get_text := fun s => s;
     translate := fun _ _ _ => [];
     dateparser_rfc822 := fun _ => None;
     utcnow_isoformat := lit "2024-05-01T06:00:00";
     utcnow_rfc822 := lit "Wed, 01 May 2024 06:00:00 +0000";
     str_upper := fun s => s |}.

Definition sample_config : Config :=
  {| translator_name := lit "openai"; cfg_target_lang := lit "en";
     cfg_timeout := 20; cfg_max_items := 30 |}.

(** An entry with a title and a summary only. *)
Definition summary_entry (title summary : str) : Entry :=
  {| e_id := None; e_link := None; e_title := Some title;
     e_summary := Some summary; e_description := None;
     e_published := None; e_updated := None |}.

(** A sample world for a feed "Granma" with two entries: the page of the
    first can be fetched and yields 1000 characters of article text, the page
    of the second cannot and the entry has a 50-character summary; the
    backend prefixes "EN: ". *)
Definition granma_url : str := lit "https://granma.example/feed".

Definition granma_entries : list Entry :=
  [ {| e_id := Some (lit "1"); e_link := Some (lit "https://granma.example/a");
       e_title := Some (lit "Primera"); e_summary := Some (lit "uno");
       e_description := None; e_published := None; e_updated := None |};
    {| e_id := Some (lit "2"); e_link := Some (lit "https://granma.example/b");
       e_title := Some (lit "Segunda"); e_summary := Some (repeat 122 50);
       e_description := None; e_published := None; e_updated := None |} ].

Definition granma_world : World :=
  {| feedparser_entries :=
       fun url => if decide (url = granma_url) then granma_entries else [];
     requests_get :=
       fun _ url _ _ =>
         if decide (url = lit "https://granma.example/a")
         then Returned {| status_code := 200; encoding := Some (lit "utf-8");
                          apparent_encoding := None;
                          text_as := fun _ => lit "<article>x</article>" |}
         else Raised;
     soup_region_text := fun _ => Some (repeat 120 1000);
     soup_get_text := fun s => s;
     translate := fun _ text _ => lit "EN: " ++ text;
     dateparser_rfc822 := fun _ => None;
     utcnow_isoformat := lit "2024-05-01T06:00:00";
     utcnow_rfc822 := lit "Wed, 01 May 2024 06:00:00 +0000";
     str_upper :=
       List.map (fun c => if (97 <=? c) && (c <=? 122) then c - 32 else c) |}.

(** The number of backend calls for a source text and a target language in
    the events of a run. *)
Definition is_translate_of (text lang : str) (ev : Event) : bool :=
  match ev with
  | EvTranslate t l => bool_decide (t = text /\ l = lang)
  | _ => false
  end.

Definition translate_calls (text lang : str) (trace : list Event) : nat :=
  length (List.filter (is_translate_of text lang) trace).

(** The cache holds a non-empty translation under a key. *)
Definition cached_nonempty (conn : DB) (key : str) : Prop :=
  exists t, cache_get conn key = Some t /\ t <> [].

(** The invariant behind "at most one backend call": with [n] calls for
    [text] made before the trace began, there is at most one call in all,
    and once there is one the cache holds a non-empty translation for it. *)
Definition at_most_once (cfg : Config) (text : str) (n : nat) (conn : DB)
    (trace : list Event) : Prop :=
  (n + translate_calls text (cfg_target_lang cfg) trace <= 1)%nat
  /\ ((1 <= n + translate_calls text (cfg_target_lang cfg) trace)%nat ->
      cached_nonempty conn (key_of cfg text)).

(** ** Well-formed XML, for the constructs the writer emits

    A character-level recogniser of XML 1.0 documents made of an optional
    declaration (the one build_rss writes), one root element, start tags with
    attributes, end tags, empty-element tags, character data, references to
    the five predefined entities and CDATA sections.  Comments, processing
    instructions, DOCTYPE, character references and references inside
    attribute values are outside this subset and are refused.  It enforces
    the Char production, matching and nesting of tags, a single root, unique
    attribute names, no "<" or bare "&" in content and no "]]>" in character
    data. *)

Definition xml_char (c : N) : bool :=
  (c =? 0x9) || (c =? 0xA) || (c =? 0xD)
  || ((0x20 <=? c) && (c <=? 0xD7FF))
  || ((0xE000 <=? c) && (c <=? 0xFFFD))
  || ((0x10000 <=? c) && (c <=? 0x10FFFF)).

Definition xml_space (c : N) : bool :=
  (c =? 0x20) || (c =? 0x9) || (c =? 0xA) || (c =? 0xD).

Definition xml_name_start (c : N) : bool :=
  ((65 <=? c) && (c <=? 90)) || ((97 <=? c) && (c <=? 122))
  || (c =? 95) || (c =? 58).

Definition xml_name_char (c : N) : bool :=
  xml_name_start c || ((48 <=? c) && (c <=? 57)) || (c =? 45) || (c =? 46).

Definition str_eqb (a b : str) : bool := bool_decide (a = b).

Definition RBRACKET : N := 93.

Definition predefined_entities : list str :=
  [lit "amp"; lit "lt"; lit "gt"; lit "apos"; lit "quot"].

Inductive xml_mode : Type :=
| XText (brackets : nat)
| XLt
| XOpenName (name : str)
| XAttrs (name : str) (seen : list str) (spaced : bool)
| XAttrName (name : str) (seen : list str) (attr : str)
| XAttrEq (name : str) (seen : list str)
| XAttrVal (name : str) (seen : list str) (quote : N)
| XEmptyEnd
| XCloseName (name : str)
| XCloseSpace (name : str)
| XBang (expected : str)
| XCData (brackets : nat)
| XRef (name : str).

Record xml_state : Type := {
  xml_stack : list str;
  xml_root_done : bool;
  xml_at : xml_mode;
}.

Definition xml_goto (st : xml_state) (m : xml_mode) : option xml_state :=
  Some {| xml_stack := xml_stack st; xml_root_done := xml_root_done st;
          xml_at := m |}.

Definition xml_push (st : xml_state) (name : str) : option xml_state :=
  Some {| xml_stack := name :: xml_stack st;
          xml_root_done := xml_root_done st; xml_at := XText 0 |}.

Definition xml_pop (st : xml_state) (name : str) : option xml_state :=
  match xml_stack st with
  | top :: rest =>
      if str_eqb top name then
        Some {| xml_stack := rest;
                xml_root_done :=
                  match rest with [] => true | _ => xml_root_done st end;
                xml_at := XText 0 |}
      else None
  | [] => None
  end.

Definition more_brackets (n : nat) : nat :=
  match n with O => 1%nat | _ => 2%nat end.

Definition is_nil {A : Type} (l : list A) : bool :=
  match l with [] => true | _ => false end.

Definition xml_step (st : xml_state) (c : N) : option xml_state :=
  if negb (xml_char c) then None else
  match xml_at st with
  | XText brackets =>
      if c =? LT then xml_goto st XLt
      else if is_nil (xml_stack st) then
        if xml_space c then xml_goto st (XText 0) else None
      else if c =? AMP then xml_goto st (XRef [])
      else if c =? GT then
        match brackets with
        | S (S _) => None
        | _ => xml_goto st (XText 0)
        end
      else if c =? RBRACKET then xml_goto st (XText (more_brackets brackets))
      else xml_goto st (XText 0)
  | XLt =>
      if c =? 47 then
        if is_nil (xml_stack st) then None else xml_goto st (XCloseName [])
      else if c =? 33 then
        if is_nil (xml_stack st) then None
        else xml_goto st (XBang (lit "[CDATA["))
      else if xml_name_start c then
        if xml_root_done st && is_nil (xml_stack st) then None
        else xml_goto st (XOpenName [c])
      else None
  | XOpenName name =>
      if xml_name_char c then xml_goto st (XOpenName (name ++ [c]))
      else if xml_space c then xml_goto st (XAttrs name [] true)
      else if c =? GT then xml_push st name
      else if c =? 47 then xml_goto st XEmptyEnd
      else None
  | XAttrs name seen spaced =>
      if xml_space c then xml_goto st (XAttrs name seen true)
      else if c =? GT then xml_push st name
      else if c =? 47 then xml_goto st XEmptyEnd
      else if xml_name_start c && spaced
      then xml_goto st (XAttrName name seen [c])
      else None
  | XAttrName name seen attr =>
      if xml_name_char c then xml_goto st (XAttrName name seen (attr ++ [c]))
      else if c =? 61 then
        if existsb (str_eqb attr) seen then None
        else xml_goto st (XAttrEq name (attr :: seen))
      else None
  | XAttrEq name seen =>
      if (c =? 34) || (c =? 39) then xml_goto st (XAttrVal name seen c)
      else None
  | XAttrVal name seen quote =>
      if c =? quote then xml_goto st (XAttrs name seen false)
      else if (c =? LT) || (c =? AMP) then None
      else xml_goto st (XAttrVal name seen quote)
  | XEmptyEnd =>
      if c =? GT then
        Some {| xml_stack := xml_stack st;
                xml_root_done :=
                  match xml_stack st with
                  | [] => true
                  | _ => xml_root_done st
                  end;
                xml_at := XText 0 |}
      else None
  | XCloseName name =>
      if xml_name_char c then xml_goto st (XCloseName (name ++ [c]))
      else if xml_space c then xml_goto st (XCloseSpace name)
      else if c =? GT then xml_pop st name
      else None
  | XCloseSpace name =>
      if xml_space c then xml_goto st (XCloseSpace name)
      else if c =? GT then xml_pop st name
      else None
  | XBang expected =>
      match expected with
      | [] => None
      | x :: rest =>
          if c =? x then
            match rest with
            | [] => xml_goto st (XCData 0)
            | _ => xml_goto st (XBang rest)
            end
          else None
      end
  | XCData brackets =>
      if c =? RBRACKET then xml_goto st (XCData (more_brackets brackets))
      else if c =? GT then
        match brackets with
        | S (S _) => xml_goto st (XText 0)
        | _ => xml_goto st (XCData 0)
        end
      else xml_goto st (XCData 0)
  | XRef name =>
      if c =? 59 then
        if existsb (str_eqb name) predefined_entities
        then xml_goto st (XText 0) else None
      else if xml_name_char c then xml_goto st (XRef (name ++ [c]))
      else None
  end.

Fixpoint xml_run (st : xml_state) (s : str) : option xml_state :=
  match s with
  | [] => Some st
  | c :: s' =>
      match xml_step st c with
      | Some st' => xml_run st' s'
      | None => None
      end
  end.

Definition xml_accepting (st : xml_state) : bool :=
  is_nil (xml_stack st) && xml_root_done st
  && match xml_at st with XText _ => true | _ => false end.

Fixpoint strip_prefix (prefix s : str) : option str :=
  match prefix, s with
  | [], _ => Some s
  | p :: prefix', c :: s' => if c =? p then strip_prefix prefix' s' else None
  | _ :: _, [] => None
  end.

Definition xml_well_formed (doc : str) : bool :=
  let body :=
    match strip_prefix XML_DECLARATION doc with
    | Some rest => rest
    | None => doc
    end in
  match xml_run {| xml_stack := []; xml_root_done := false;
                   xml_at := XText 0 |} body with
  | Some st => xml_accepting st
  | None => false
  end.

(** [contains pat s]: [pat] occurs in [s]. *)
Fixpoint contains (pat s : str) : bool :=
  match strip_prefix pat s with
  | Some _ => true
  | None => match s with [] => false | _ :: s' => contains pat s' end
  end.

Definition CDATA_END : str := lit "]]>".

(** An item build_rss can write well-formed: XML characters only, and no
    end-of-CDATA marker in the description. *)
Definition item_writable (it : gmap str str) : bool :=
  forallb xml_char (item_get it "title")
  && forallb xml_char (item_get it "link")
  && forallb xml_char (item_get it "guid")
  && forallb xml_char (item_get it "pubDate")
  && forallb xml_char (item_get it "description")
  && negb (contains CDATA_END (item_get it "description")).

(** Text that needs no escaping. *)
Definition xml_plain (c : N) : bool :=
  xml_char c && negb ((c =? LT) || (c =? AMP) || (c =? GT)).

(** The reading of an escaped field: the three entities back to their
    characters. *)
Fixpoint unesc (s : str) : str :=
  match s with
  | [] => []
  | 38 :: 97 :: 109 :: 112 :: 59 :: r => AMP :: unesc r
  | 38 :: 108 :: 116 :: 59 :: r => LT :: unesc r
  | 38 :: 103 :: 116 :: 59 :: r => GT :: unesc r
  | c :: r => c :: unesc r
  end.

(** Inside the root element, in character data. *)
Definition xml_inside (top : str) (below : list str) (brackets : nat)
    : xml_state :=
  {| xml_stack := top :: below; xml_root_done := false;
     xml_at := XText brackets |}.

(** A piece of element content: read inside any element, it leaves the
    reader inside that element. *)
Definition xml_content (s : str) : Prop :=
  forall top below brackets, exists brackets',
    xml_run (xml_inside top below brackets) s
    = Some (xml_inside top below brackets').

(** ** The document as the specification describes it

    One root element holding one channel; in the channel the escaped channel
    title, link, description and build date, then one item element per item
    in input order, each with escaped title, link, guid and (when not empty)
    pubDate and with the description verbatim in a CDATA section. *)

Definition spec_item_block (it : gmap str str) : str :=
  [NL]
  ++ lit "<item>"
  ++ ([NL] ++ (lit "<title>" ++ esc (item_get it "title") ++ lit "</title>")
      ++ [NL] ++ (lit "<link>" ++ esc (item_get it "link") ++ lit "</link>")
      ++ [NL] ++ (GUID_OPEN ++ esc (item_get it "guid") ++ lit "</guid>")
      ++ (if truthy (item_get it "pubDate")
          then [NL] ++ (lit "<pubDate>" ++ esc (item_get it "pubDate")
                        ++ lit "</pubDate>")
          else [])
      ++ [NL] ++ (lit "<description><![CDATA["
                  ++ item_get it "description"
                  ++ lit "]]></description>")
      ++ [NL])
  ++ lit "</item>".

Definition spec_channel_content (now feed_title : str)
    (items : list (gmap str str)) : str :=
  [NL] ++ (lit "<title>" ++ esc feed_title ++ lit "</title>")
  ++ [NL] ++ (lit "<link>" ++ [] ++ lit "</link>")
  ++ [NL] ++ (lit "<description>" ++ esc feed_title ++ lit "</description>")
  ++ [NL] ++ (lit "<lastBuildDate>" ++ now ++ lit "</lastBuildDate>")
  ++ concat (List.map spec_item_block items)
  ++ [NL].

Definition spec_document (now feed_title : str)
    (items : list (gmap str str)) : str :=
  XML_DECLARATION
  ++ ([NL] ++ RSS_OPEN ++ [NL] ++ lit "<channel>")
  ++ spec_channel_content now feed_title items
  ++ lit "</channel></rss>".

(** Inside a CDATA section. *)
Definition xml_in_cdata (top : str) (below : list str) (brackets : nat)
    : xml_state :=
  {| xml_stack := top :: below; xml_root_done := false;
     xml_at := XCData brackets |}.

(** Lines 309-310: the document main writes for a feed. *)
Definition assemble (now feed_title target_lang : str)
    (items : list (gmap str str)) : str :=
  build_rss now (out_title feed_title target_lang) items.

(** What [esc] writes for one character. *)
Definition esc_char (c : N) : str :=
  if c =? AMP then lit "&amp;"
  else if c =? LT then lit "&lt;"
  else if c =? GT then lit "&gt;"
  else [c].


(** The five words of a SHA-1 state are 32-bit words. *)
Definition word_state (s : SHA1.state) : Prop :=
  let '(a, b, c, d, e) := s in
  a < 2 ^ 32 /\ b < 2 ^ 32 /\ c < 2 ^ 32 /\ d < 2 ^ 32 /\ e < 2 ^ 32.


(** ** slugify and the output file name *)

(** [s.lstrip(chars)] and [s.strip(chars)] for a set of characters. *)
Fixpoint lstrip_by (p : N -> bool) (s : str) : str :=
  match s with
  | c :: s' => if p c then lstrip_by p s' else s
  | [] => []
  end.

Definition strip_by (p : N -> bool) (s : str) : str :=
  rev (lstrip_by p (rev (lstrip_by p s))).

Definition HYPHEN : N := 45.

Definition is_hyphen (c : N) : bool := c =? HYPHEN.

(** The class [a-z0-9]. *)
Definition is_slug_alnum (c : N) : bool :=
  ((97 <=? c) && (c <=? 122)) || ((48 <=? c) && (c <=? 57)).

(** [re.sub(r"[^a-z0-9]+", "-", s)]; [in_run]: the previous character was
    outside the class. *)
Fixpoint sub_non_alnum (in_run : bool) (s : str) : str :=
  match s with
  | [] => []
  | c :: s' =>
      if is_slug_alnum c then c :: sub_non_alnum false s'
      else if in_run then sub_non_alnum true s'
      else HYPHEN :: sub_non_alnum true s'
  end.

(** [re.sub(r"-{2,}", "-", s)]; [in_run]: the previous character was a
    hyphen. *)
Fixpoint sub_hyphen_runs (in_run : bool) (s : str) : str :=
  match s with
  | [] => []
  | c :: s' =>
      if is_hyphen c then
        if in_run then sub_hyphen_runs true s'
        else HYPHEN :: sub_hyphen_runs true s'
      else c :: sub_hyphen_runs false s'
  end.

(** [slugify(s)]; [str_lower] is Python's [str.lower]. *)
Definition slugify (str_lower : str -> str) (s : str) : str :=
  let s := str_lower (strip s) in
  let s := sub_non_alnum false s in
  let s := strip_by is_hyphen (sub_hyphen_runs false s) in
  if truthy s then s else lit "feed".

(** Line 312: the name of the file main writes for a feed. *)
Definition feed_filename (str_lower : str -> str) (title target_lang : str)
    : str :=
  slugify str_lower title ++ lit "." ++ target_lang ++ lit ".xml".

(** The characters of a slug. *)
Definition slug_char (c : N) : bool := is_slug_alnum c || is_hyphen c.

(** A string of slug characters with no two hyphens in a row;
    [after_hyphen]: the character before it was a hyphen. *)
Fixpoint slug_ok (after_hyphen : bool) (s : str) : bool :=
  match s with
  | [] => true
  | c :: s' =>
      if is_hyphen c then negb after_hyphen && slug_ok true s'
      else is_slug_alnum c && slug_ok false s'
  end.

(** [str.lower] on ASCII text, for the examples. *)
Definition ascii_lower (s : str) : str :=
  List.map (fun c => if (65 <=? c) && (c <=? 90) then c + 32 else c) s.

(** ** How build_translated_opml.py reads the file names back *)

Definition DOT : N := 46.

(** [s.split(sep)] for a single character [sep]. *)
Fixpoint split_on (sep : N) (s : str) : list str :=
  match s with
  | [] => [[]]
  | c :: s' =>
      if c =? sep then [] :: split_on sep s'
      else
        match split_on sep s' with
        | p :: ps => (c :: p) :: ps
        | [] => [[c]]
        end
  end.

(** [fn.split('.')[-2]], the language shown for a file of the output
    directory; [None] where the index is out of range. *)
Definition filename_language (fn : str) : option str :=
  nth_error (rev (split_on DOT fn)) 1.

(** [s.startswith(prefix)] *)
Definition starts_with (prefix s : str) : bool :=
  match strip_prefix prefix s with
  | Some _ => true
  | None => false
  end.

(** ** parse_opml and the feed filter of main *)

(** An element of the parsed OPML tree, as [root.iter()] yields them. *)
Record Element : Type := {
  el_tag : str;
  el_attrib : gmap str str;
}.

(** [a or b] on two optional strings. *)
Definition py_or (a b : option str) : option str :=
  match a with
  | Some s => if truthy s then Some s else b
  | None => b
  end.

(** [s.endswith(suffix)] *)
Definition ends_with (suffix s : str) : bool :=
  match strip_prefix (rev suffix) (rev s) with
  | Some _ => true
  | None => false
  end.

(** The body of the first loop of parse_opml (lines 96-100): the feed an
    element contributes, if any. *)
Definition outline_feed (str_lower : str -> str) (el : Element)
    : option (str * str) :=
  if ends_with (lit "outline") (str_lower (el_tag el)) then
    let xmlurl :=
      or_empty (py_or (el_attrib el !! lit "xmlUrl")
                      (el_attrib el !! lit "xmlurl")) in
    let text :=
      or_empty (py_or (py_or (el_attrib el !! lit "text")
                             (el_attrib el !! lit "title"))
                      (Some (lit "Feed"))) in
    if truthy xmlurl then Some (text, xmlurl) else None
  else None.

Fixpoint collect_feeds (str_lower : str -> str) (elements : list Element)
    : list (str * str) :=
  match elements with
  | [] => []
  | el :: rest =>
      match outline_feed str_lower el with
      | Some f => f :: collect_feeds str_lower rest
      | None => collect_feeds str_lower rest
      end
  end.

(** The second loop of parse_opml (lines 102-107). *)
Fixpoint dedupe_urls (seen : gset str) (feeds : list (str * str))
    : list (str * str) :=
  match feeds with
  | [] => []
  | f :: rest =>
      if decide (f.2 ∈ seen) then dedupe_urls seen rest
      else f :: dedupe_urls ({[f.2]} ∪ seen) rest
  end.

(** [parse_opml] on the elements of the parsed file. *)
Definition parse_opml (str_lower : str -> str) (elements : list Element)
    : list (str * str) :=
  dedupe_urls ∅ (collect_feeds str_lower elements).

(** Lines 245-247: the feeds main goes through. *)
Definition select_feeds (only_lang_ceid : str) (feeds : list (str * str))
    : list (str * str) :=
  if truthy only_lang_ceid
  then List.filter (fun f => contains only_lang_ceid f.2) feeds
  else feeds.

(** ** The answer of the OpenAI backend (OpenAITranslator.translate) *)

(** What translate reads of the SDK response: [output_text], and [output]
    with the [content] of each item and the [type] and [text] of each part;
    an attribute that is missing or None is [None], and for [text] the two
    are told apart. *)
Inductive text_attr : Type :=
| TextMissing
| TextNone
| TextStr (s : str).

Record ContentPart : Type := {
  part_type : option str;
  part_text : text_attr;
}.

Record ResponseItem : Type := {
  item_content : option (list ContentPart);
}.

Record ApiResponse : Type := {
  resp_output_text : option str;
  resp_output : option (list ResponseItem);
}.

(** Lines 182-186: the parts collected; [getattr(c, "text", "")] is [None]
    when the attribute is there and holds None. *)
Definition output_text_parts (items : list ResponseItem)
    : list (option str) :=
  flat_map
    (fun item =>
       flat_map
         (fun c =>
            if bool_decide (or_empty (part_type c) = lit "output_text")
            then [match part_text c with
                  | TextMissing => Some []
                  | TextNone => None
                  | TextStr s => Some s
                  end]
            else [])
         (match item_content item with Some cs => cs | None => [] end))
    items.

(** ["\n".join(parts)]: it raises when a part is None. *)
Fixpoint all_strings (parts : list (option str)) : option (list str) :=
  match parts with
  | [] => Some []
  | Some s :: rest =>
      match all_strings rest with
      | Some l => Some (s :: l)
      | None => None
      end
  | None :: _ => None
  end.

(** Lines 177-189: the text translate returns for a response; an exception
    in the fallback gives the empty string. *)
Definition response_text (resp : ApiResponse) : str :=
  if truthy (or_empty (resp_output_text resp))
  then strip (or_empty (resp_output_text resp))
  else
    match resp_output resp with
    | Some items =>
        match all_strings (output_text_parts items) with
        | Some parts => strip (join [NL] parts)
        | None => []
        end
    | None => []
    end.

(** ** pick_translator *)

Inductive startup (A : Type) : Type :=
| Started (a : A)
| SystemExit (message : str).
Arguments Started {A} a.
Arguments SystemExit {A} message.

(** What pick_translator yields: the backend name, the model and the API
    key of the client. *)
Record TranslatorChoice : Type := {
  choice_name : str;
  choice_model : str;
  choice_api_key : str;
}.

(** [pick_translator(api_key_override)] with the environment variables
    TRANSLATOR, OPENAI_MODEL and OPENAI_API_KEY. *)
Definition pick_translator (str_lower : str -> str)
    (env_translator env_model env_api_key api_key_override : option str)
    : startup TranslatorChoice :=
  let which :=
    str_lower (strip (or_empty (py_or env_translator (Some (lit "openai")))))
  in
  if bool_decide (which = lit "openai") then
    let model := or_empty (py_or env_model (Some (lit "gpt-4.1-mini"))) in
    let api_key := strip (or_empty (py_or api_key_override env_api_key)) in
    if truthy api_key
    then Started {| choice_name := which; choice_model := model;
                    choice_api_key := api_key |}
    else SystemExit (lit "Missing OPENAI_API_KEY. Set it in .env, or pass --api_key to translate_rss.py")
  else
    SystemExit (lit "Unsupported TRANSLATOR=" ++ which
                ++ lit ". This pack includes OpenAI by default.").

(** ** Further notions the properties are stated with *)

(** A lowercase hexadecimal digit. *)
Definition is_hex_lower (c : N) : bool :=
  ((48 <=? c) && (c <=? 57)) || ((97 <=? c) && (c <=? 102)).

Definition TRIPLE_NEWLINE : str := [NL; NL; NL].

Definition not_newline (c : N) : bool := negb (c =? NL).

(** The item an iteration of the entry loop appends, as a list. *)
Definition item_list (o : option (gmap str str)) : list (gmap str str) :=
  match o with Some i => [i] | None => [] end.

(** All items a run outputs, feed after feed. *)
Definition all_items (outs : list FeedOutput) : list (gmap str str) :=
  concat (List.map out_items outs).

Definition item_guid (it : gmap str str) : str := item_get it "guid".

Definition is_fetch (ev : Event) : bool :=
  match ev with EvFetch _ _ => true | _ => false end.

Definition is_extract (ev : Event) : bool :=
  match ev with EvExtract _ => true | _ => false end.

Definition is_translate (ev : Event) : bool :=
  match ev with EvTranslate _ _ => true | _ => false end.

Definition count_events (p : Event -> bool) (trace : list Event) : nat :=
  length (List.filter p trace).

(** What holds of every backend call main makes. *)
Definition translate_input_ok (cfg : Config) (ev : Event) : Prop :=
  match ev with
  | EvTranslate text lang =>
      lang = cfg_target_lang cfg /\ (len text <= 12021)%Z
      /\ strip text = text
  | _ => True
  end.

(** What holds of every backend call once the run has stored its result:
    the cache has a record under the key of the text, and a non-empty
    translation when the text is not empty. *)
Definition translate_cached (cfg : Config) (conn : DB) (ev : Event) : Prop :=
  match ev with
  | EvTranslate text lang =>
      is_Some (translated_cache conn !! key_of cfg text)
      /\ (text <> [] -> cached_nonempty conn (key_of cfg text))
  | _ => True
  end.

(** * Properties *)

(** ** Standard test vectors for the hash *)

Example sha1_abc :
  sha1 (lit "abc") = lit "a9993e364706816aba3e25717850c26c9cd0d89d".
Proof. vm_compute. reflexivity. Qed.

Example sha1_empty :
  sha1 [] = lit "da39a3ee5e6b4b0d3255bfef95601890afd80709".
Proof. vm_compute. reflexivity. Qed.

Example sha1_two_blocks :
  sha1 (lit "abcdbcdecdefdefgefghfghighijhijkijkljklmklmnlmnomnopnopq")
  = lit "84983e441c3bd26ebaae4aa1f95129e5e54670f1".
Proof. vm_compute. reflexivity. Qed.


(** ** Strings and their UTF-8 encoding *)

Lemma encode_app (a b : str) :
  encode_utf8_ignore (a ++ b) = encode_utf8_ignore a ++ encode_utf8_ignore b.
Proof. unfold encode_utf8_ignore. apply flat_map_app. Qed.

Lemma div4096 (c : N) : c / 4096 = c / 64 / 64.
Proof. now rewrite N.Div0.div_div. Qed.

Lemma div262144 (c : N) : c / 262144 = c / 64 / 64 / 64.
Proof. now rewrite !N.Div0.div_div. Qed.

Lemma utf8_char_cases (c : N) :
  scalar c ->
  (c < 0x80 /\ utf8_char c = [c]) \/
  (c / 64 < 32 /\ utf8_char c = [0xC0 + c / 64; 0x80 + c mod 64]) \/
  (c / 64 / 64 < 16 /\
   utf8_char c = [0xE0 + c / 64 / 64; 0x80 + (c / 64) mod 64; 0x80 + c mod 64]) \/
  (utf8_char c = [0xF0 + c / 64 / 64 / 64; 0x80 + (c / 64 / 64) mod 64;
                  0x80 + (c / 64) mod 64; 0x80 + c mod 64]).
Proof.
  intros [B S]. unfold utf8_char.
  rewrite (div4096 c), (div262144 c).
  destruct (N.ltb_spec c 0x80); [left; split; [lia|reflexivity]|].
  destruct (N.ltb_spec c 0x800).
  { right; left; split; [|reflexivity].
    apply N.Div0.div_lt_upper_bound. lia. }
  destruct (N.leb_spec 0xD800 c), (N.leb_spec c 0xDFFF); cbn [andb]; try lia;
  (destruct (N.ltb_spec c 0x10000);
   [right; right; left; split; [|reflexivity]
   |right; right; right; reflexivity]).
  all: rewrite <- div4096; apply N.Div0.div_lt_upper_bound; lia.
Qed.

Lemma split64 (c : N) : c = 64 * (c / 64) + c mod 64.
Proof. apply N.div_mod. discriminate. Qed.

Lemma utf8_char_inj (c1 c2 : N) (r1 r2 : bytes) :
  scalar c1 -> scalar c2 ->
  utf8_char c1 ++ r1 = utf8_char c2 ++ r2 -> c1 = c2 /\ r1 = r2.
Proof.
  intros H1 H2.
  pose proof (split64 c1); pose proof (split64 c2);
  pose proof (split64 (c1 / 64)); pose proof (split64 (c2 / 64));
  pose proof (split64 (c1 / 64 / 64)); pose proof (split64 (c2 / 64 / 64)).
  destruct (utf8_char_cases c1 H1) as [[R1 ->]|[[R1 ->]|[[R1 ->]| ->]]];
  destruct (utf8_char_cases c2 H2) as [[R2 ->]|[[R2 ->]|[[R2 ->]| ->]]];
  clear H1 H2; cbn [app]; intros E; injection E; clear E; intros;
  repeat match goal with
  | H : context [?a / 64] |- _ =>
      let x := fresh "q" in set (x := a / 64) in *; clearbody x
  | H : context [?a mod 64] |- _ =>
      let x := fresh "m" in set (x := a mod 64) in *; clearbody x
  end;
  first [ split; [lia | assumption] | exfalso; lia ].
Qed.

Lemma utf8_char_nonempty (c : N) : scalar c -> utf8_char c <> [].
Proof.
  intros H.
  destruct (utf8_char_cases c H) as [[_ ->]|[[_ ->]|[[_ ->]| ->]]];
    discriminate.
Qed.

(** UTF-8 is injective on strings of scalar values. *)
Lemma encode_scalar_inj (s1 s2 : str) :
  Forall scalar s1 -> Forall scalar s2 ->
  encode_utf8_ignore s1 = encode_utf8_ignore s2 -> s1 = s2.
Proof.
  intros F1. revert s2.
  induction F1 as [|c1 s1 Hc1 _ IH]; intros s2 F2 E.
  - destruct F2 as [|c2 s2 Hc2 _]; [reflexivity|].
    cbn in E. symmetry in E. apply app_eq_nil in E as [E _].
    now apply utf8_char_nonempty in E.
  - destruct F2 as [|c2 s2 Hc2 F2].
    + cbn in E. apply app_eq_nil in E as [E _].
      now apply utf8_char_nonempty in E.
    + cbn in E. apply utf8_char_inj in E as [-> E]; [|assumption..].
      f_equal. now apply IH.
Qed.

Lemma scalar_ascii (c : N) : c < 0x80 -> scalar c.
Proof. unfold scalar. lia. Qed.

Lemma scalar_ascii_string (s : str) :
  forallb (fun c => c <? 0x80) s = true -> Forall scalar s.
Proof.
  induction s as [|c s IH]; cbn [forallb]; intros H; constructor.
  - apply scalar_ascii, N.ltb_lt. now apply andb_prop in H.
  - apply IH. now apply andb_prop in H.
Qed.

(** ** The hex digest determines the digest *)

Lemma hex_digit_inj (a b : N) :
  a < 16 -> b < 16 -> SHA1.hex_digit a = SHA1.hex_digit b -> a = b.
Proof.
  unfold SHA1.hex_digit. intros Ha Hb.
  destruct (N.ltb_spec a 10), (N.ltb_spec b 10); lia.
Qed.

Lemma split16 (x : N) : x = 16 * (x / 16) + x mod 16.
Proof. apply N.div_mod. discriminate. Qed.

Lemma mod16_lt (x : N) : x mod 16 < 16.
Proof. apply N.mod_lt. discriminate. Qed.

Lemma hex_word_nibbles (x : N) :
  SHA1.hex_word x
  = List.map SHA1.hex_digit
      [(x / 16 / 16 / 16 / 16 / 16 / 16 / 16) mod 16;
       (x / 16 / 16 / 16 / 16 / 16 / 16) mod 16;
       (x / 16 / 16 / 16 / 16 / 16) mod 16;
       (x / 16 / 16 / 16 / 16) mod 16;
       (x / 16 / 16 / 16) mod 16;
       (x / 16 / 16) mod 16;
       (x / 16) mod 16;
       x mod 16].
Proof.
  unfold SHA1.hex_word. cbn [seq rev app List.map].
  rewrite !N.Div0.div_div. repeat f_equal.
  change (16 ^ N.of_nat 0) with 1. now rewrite N.div_1_r.
Qed.

Lemma hex_word_inj (x y : N) :
  x < 2 ^ 32 -> y < 2 ^ 32 -> SHA1.hex_word x = SHA1.hex_word y -> x = y.
Proof.
  intros Hx Hy. rewrite !hex_word_nibbles. cbn [List.map]. intros E.
  injection E as E7 E6 E5 E4 E3 E2 E1 E0.
  apply hex_digit_inj in E0, E1, E2, E3, E4, E5, E6, E7;
    try apply mod16_lt.
  pose proof (split16 x); pose proof (split16 y).
  pose proof (split16 (x / 16)); pose proof (split16 (y / 16)).
  pose proof (split16 (x / 16 / 16)); pose proof (split16 (y / 16 / 16)).
  pose proof (split16 (x / 16 / 16 / 16));
    pose proof (split16 (y / 16 / 16 / 16)).
  pose proof (split16 (x / 16 / 16 / 16 / 16));
    pose proof (split16 (y / 16 / 16 / 16 / 16)).
  pose proof (split16 (x / 16 / 16 / 16 / 16 / 16));
    pose proof (split16 (y / 16 / 16 / 16 / 16 / 16)).
  pose proof (split16 (x / 16 / 16 / 16 / 16 / 16 / 16));
    pose proof (split16 (y / 16 / 16 / 16 / 16 / 16 / 16)).
  pose proof (split16 (x / 16 / 16 / 16 / 16 / 16 / 16 / 16));
    pose proof (split16 (y / 16 / 16 / 16 / 16 / 16 / 16 / 16)).
  change (2 ^ 32) with 4294967296 in *.
  repeat match goal with
  | H : context [?a / 16] |- _ =>
      let q := fresh "q" in set (q := a / 16) in *; clearbody q
  | H : context [?a mod 16] |- _ =>
      let m := fresh "m" in set (m := a mod 16) in *; clearbody m
  end.
  lia.
Qed.

Lemma hex_word_length (x : N) : length (SHA1.hex_word x) = 8%nat.
Proof. reflexivity. Qed.

Lemma w32_lt (x : N) : SHA1.w32 x < 2 ^ 32.
Proof. unfold SHA1.w32. apply N.mod_lt. discriminate. Qed.

Lemma compress_words (h : SHA1.state) (block : bytes) :
  word_state (SHA1.compress h block).
Proof.
  unfold SHA1.compress. destruct h as [[[[h0 h1] h2] h3] h4].
  destruct (fold_left SHA1.round _ _) as [[[[a b] c] d] e].
  repeat split; apply w32_lt.
Qed.

Lemma digest_words (msg : bytes) : word_state (SHA1.digest msg).
Proof.
  unfold SHA1.digest.
  assert (H : forall bs h, word_state h ->
                word_state (fold_left SHA1.compress bs h)).
  { induction bs as [|b bs IH]; intros h Hh; [exact Hh|].
    cbn [fold_left]. apply IH, compress_words. }
  apply H. vm_compute. repeat split; reflexivity.
Qed.

(** Two messages with the same hex digest have the same 160-bit digest. *)
Lemma hexdigest_inj (m1 m2 : bytes) :
  SHA1.hexdigest m1 = SHA1.hexdigest m2 -> SHA1.digest m1 = SHA1.digest m2.
Proof.
  unfold SHA1.hexdigest.
  pose proof (digest_words m1) as W1. pose proof (digest_words m2) as W2.
  destruct (SHA1.digest m1) as [[[[a1 b1] c1] d1] e1].
  destruct (SHA1.digest m2) as [[[[a2 b2] c2] d2] e2].
  destruct W1 as (A1 & B1 & C1 & D1 & E1).
  destruct W2 as (A2 & B2 & C2 & D2 & E2).
  intros E.
  apply app_inj_1 in E as [Ea E]; [|reflexivity].
  apply app_inj_1 in E as [Eb E]; [|reflexivity].
  apply app_inj_1 in E as [Ec E]; [|reflexivity].
  apply app_inj_1 in E as [Ed Ee]; [|reflexivity].
  apply hex_word_inj in Ea, Eb, Ec, Ed, Ee; try assumption.
  now subst.
Qed.

(** ** The cache key and the entry identity *)

Lemma cache_key_digest (b l t : str) :
  cache_key b l t = SHA1.hexdigest (cache_key_input b l t).
Proof.
  unfold cache_key, sha1, cache_key_input.
  now rewrite !encode_app.
Qed.

Lemma cache_key_input_lang (b l l' t : str) :
  cache_key_input b l t = cache_key_input b l' t ->
  encode_utf8_ignore l = encode_utf8_ignore l'.
Proof.
  unfold cache_key_input. intros E.
  apply app_inv_head in E. cbn [app] in E. injection E as E.
  now apply app_inv_tail in E.
Qed.

(** C2, as stated, fails: a target language read from the environment may
    hold a lone surrogate (an undecodable byte, U+DCFF here), which
    [encode("utf-8", errors="ignore")] drops, so two distinct target
    languages get one cache key. *)
Lemma C2_surrogate_counterexample :
  let b := lit "openai" in
  let t := lit "hola" in
  let l1 := lit "en" in
  let l2 := lit "en" ++ [0xDCFF] in
  l1 <> l2 /\ cache_key b l1 t = cache_key b l2 t.
Proof.
  split; [discriminate|].
  unfold cache_key, sha1. f_equal. all: vm_compute; reflexivity.
Qed.

(** C2 (amended): the cache key is the SHA-1 hex digest of the UTF-8 bytes of
    b + ":" + l + ":" + t, code points that cannot be encoded being dropped;
    it is a function of (b, l, t); and for fixed b and t, two distinct target
    languages made of Unicode scalar values are hashed from distinct byte
    strings, so that their keys are equal only if SHA-1 gives those two
    distinct byte strings the same 160-bit digest. *)
Theorem C2_cache_key (b l l' t : str) :
  Forall scalar l -> Forall scalar l' -> l <> l' ->
  cache_key b l t
  = SHA1.hexdigest (encode_utf8_ignore (b ++ [COLON] ++ l ++ [COLON] ++ t))
  /\ encode_utf8_ignore (b ++ [COLON] ++ l ++ [COLON] ++ t)
     = cache_key_input b l t
  /\ (forall b2 l2 t2, b2 = b -> l2 = l -> t2 = t ->
      cache_key b2 l2 t2 = cache_key b l t)
  /\ cache_key_input b l t <> cache_key_input b l' t
  /\ (cache_key b l t = cache_key b l' t ->
      SHA1.digest (cache_key_input b l t)
      = SHA1.digest (cache_key_input b l' t)).
Proof.
  intros Hl Hl' Hne. split; [reflexivity|]. split.
  { unfold cache_key_input. now rewrite !encode_app. }
  split; [now intros ? ? ? -> -> ->|]. split.
  - intros E. apply cache_key_input_lang in E.
    now apply encode_scalar_inj in E.
  - rewrite !cache_key_digest. apply hexdigest_inj.
Qed.

Lemma C2_cache_key_witness :
  cache_key_input (lit "openai") (lit "en") (lit "hola")
  <> cache_key_input (lit "openai") (lit "fr") (lit "hola").
Proof.
  apply (C2_cache_key (lit "openai") (lit "en") (lit "fr") (lit "hola")).
  - apply scalar_ascii_string. reflexivity.
  - apply scalar_ascii_string. reflexivity.
  - discriminate.
Defined.

(** C5, as stated, fails: the three fields are concatenated without a
    separator, so two entries with the same title and distinct
    (upstream id, link) pairs can have one identity. *)
Lemma C5_concatenation_counterexample :
  let e1 := {| e_id := Some (lit "item-1"); e_link := Some (lit "0/news");
               e_title := Some (lit "Storm"); e_summary := None;
               e_description := None; e_published := None;
               e_updated := None |} in
  let e2 := {| e_id := Some (lit "item-10"); e_link := Some (lit "/news");
               e_title := Some (lit "Storm"); e_summary := None;
               e_description := None; e_published := None;
               e_updated := None |} in
  (e_id e1, e_link e1, e_title e1) <> (e_id e2, e_link e2, e_title e2)
  /\ entry_id e1 = entry_id e2.
Proof.
  split; [discriminate|].
  unfold entry_id, sha1. f_equal. all: vm_compute; reflexivity.
Qed.

(** C5 (amended): the identity is the SHA-1 hex digest of the UTF-8 bytes of
    upstream_id + link + title, an absent field counting as the empty string
    (so without an upstream id it is the digest of link + title); equal
    concatenations always give the same identity; and two entries whose
    concatenations are distinct strings of Unicode scalar values are hashed
    from distinct byte strings, also when their titles are equal, so that
    their identities are equal only if SHA-1 gives those two distinct byte
    strings the same 160-bit digest. *)
Theorem C5_entry_identity (e e' : Entry) :
  Forall scalar (id_link_title e) -> Forall scalar (id_link_title e') ->
  id_link_title e <> id_link_title e' ->
  entry_id e = SHA1.hexdigest (encode_utf8_ignore (id_link_title e))
  /\ (e_id e = None ->
      entry_id e = sha1 (or_empty (e_link e) ++ or_empty (e_title e)))
  /\ (forall e2, id_link_title e2 = id_link_title e ->
      entry_id e2 = entry_id e)
  /\ encode_utf8_ignore (id_link_title e)
     <> encode_utf8_ignore (id_link_title e')
  /\ (entry_id e = entry_id e' ->
      SHA1.digest (encode_utf8_ignore (id_link_title e))
      = SHA1.digest (encode_utf8_ignore (id_link_title e'))).
Proof.
  intros F F' Hne. split; [reflexivity|]. split.
  { intros E. unfold entry_id. now rewrite E. }
  split.
  { intros e2 E. unfold entry_id. fold (id_link_title e2).
    fold (id_link_title e). now rewrite E. }
  split.
  - intros E. now apply encode_scalar_inj in E.
  - unfold entry_id, sha1. fold (id_link_title e). fold (id_link_title e').
    apply hexdigest_inj.
Qed.

Lemma C5_entry_identity_witness :
  let e := {| e_id := Some (lit "42"); e_link := Some (lit "https://x/y");
              e_title := Some (lit "Storm warning"); e_summary := None;
              e_description := None; e_published := None;
              e_updated := None |} in
  let e' := {| e_id := None; e_link := Some (lit "https://x/y");
               e_title := Some (lit "Storm warning"); e_summary := None;
               e_description := None; e_published := None;
               e_updated := None |} in
  encode_utf8_ignore (id_link_title e) <> encode_utf8_ignore (id_link_title e').
Proof.
  intros e e'. apply (C5_entry_identity e e').
  - apply scalar_ascii_string. reflexivity.
  - apply scalar_ascii_string. reflexivity.
  - discriminate.
Defined.

(** ** One entry *)

Lemma build_description_eq (translated source_text : str) :
  build_description translated source_text
  = description_of (replace1 NL BR translated)
      (replace1 NL BR (orig_snip source_text)).
Proof.
  unfold build_description, description_of. now rewrite <- !app_assoc.
Qed.

Lemma process_entry_seen (w : World) (cfg : Config) (conn : DB)
    (past : list Event) (e : Entry) :
  is_seen conn (entry_id e) = true ->
  process_entry w cfg conn past e = (conn, past, None).
Proof. intros H. unfold process_entry. now rewrite H. Qed.

Lemma process_entry_unseen (w : World) (cfg : Config) (conn : DB)
    (past : list Event) (e : Entry) :
  is_seen conn (entry_id e) = false ->
  let source_text := entry_source_text w cfg past e in
  let r := lookup_or_translate w cfg conn (entry_past w cfg past e)
             source_text in
  process_entry w cfg conn past e
  = (mark_seen (utcnow_isoformat w) r.1.2 (entry_id e), r.2,
     Some (make_item w cfg e (entry_id e)
             (build_description r.1.1 source_text))).
Proof.
  intros H. unfold process_entry, entry_source_text, entry_past.
  rewrite H. destruct (fetch_article _ _ _ _) as [article past1]. cbn [fst snd].
  destruct (lookup_or_translate _ _ _ _ _) as [[translated conn1] past2].
  reflexivity.
Qed.

Lemma make_item_description (w : World) (cfg : Config) (e : Entry)
    (eid desc : str) :
  make_item w cfg e eid desc !! lit "description" = Some desc.
Proof.
  unfold make_item.
  rewrite lookup_insert_ne by discriminate.
  rewrite lookup_insert_ne by discriminate.
  rewrite lookup_insert_ne by discriminate.
  rewrite lookup_insert_ne by discriminate.
  apply lookup_insert_eq.
Qed.

Lemma cache_get_put (now : str) (conn : DB) (key b l s t : str) :
  cache_get (cache_put now conn key b l s t) key = Some t.
Proof. unfold cache_get, cache_put. cbn. now rewrite lookup_insert_eq. Qed.

Lemma lookup_or_translate_miss (w : World) (cfg : Config) (conn : DB)
    (past : list Event) (source_text : str) :
  truthy (or_empty (cache_get conn (key_of cfg source_text))) = false ->
  let answer := translate w past source_text (cfg_target_lang cfg) in
  let translated := if truthy answer then answer else source_text in
  lookup_or_translate w cfg conn past source_text
  = (translated,
     cache_put (utcnow_isoformat w) conn (key_of cfg source_text)
       (translator_name cfg) (cfg_target_lang cfg) source_text translated,
     past ++ [EvTranslate source_text (cfg_target_lang cfg)]).
Proof.
  intros H. unfold lookup_or_translate. fold (key_of cfg source_text).
  now rewrite H.
Qed.

Lemma lookup_or_translate_hit (w : World) (cfg : Config) (conn : DB)
    (past : list Event) (source_text t : str) :
  cache_get conn (key_of cfg source_text) = Some t -> t <> [] ->
  lookup_or_translate w cfg conn past source_text = (t, conn, past).
Proof.
  intros H Ht. unfold lookup_or_translate. fold (key_of cfg source_text).
  rewrite H. cbn [or_empty]. destruct t; [contradiction|]. reflexivity.
Qed.

(** ** The cache lookup (C10, C4) *)

(** C10: a cache record whose [translated] value is the empty string is a
    miss: the backend is called again and the record under that key is
    replaced by the new result; a stored non-empty translation is a hit (no
    call, no write).  The pipeline itself stores such a record when the
    truncated source text is empty and the backend answers with the empty
    string. *)
Theorem C10_cached_empty_is_miss (w : World) (cfg : Config) (conn : DB)
    (past : list Event) (source_text : str) :
  cache_get conn (key_of cfg source_text) = Some [] ->
  let answer := translate w past source_text (cfg_target_lang cfg) in
  let translated := if truthy answer then answer else source_text in
  let r := lookup_or_translate w cfg conn past source_text in
  r.1.1 = translated
  /\ r.2 = past ++ [EvTranslate source_text (cfg_target_lang cfg)]
  /\ translated_cache r.1.2 !! key_of cfg source_text
     = Some {| created_at := utcnow_isoformat w;
               translator := translator_name cfg;
               target_lang := cfg_target_lang cfg;
               source_len := len source_text;
               translated := translated |}
  /\ (forall conn' t, cache_get conn' (key_of cfg source_text) = Some t ->
      t <> [] ->
      lookup_or_translate w cfg conn' past source_text = (t, conn', past))
  /\ (forall conn0, cache_get conn0 (key_of cfg []) = None ->
      translate w past [] (cfg_target_lang cfg) = [] ->
      cache_get (lookup_or_translate w cfg conn0 past []).1.2 (key_of cfg [])
      = Some []).
Proof.
  intros H answer translated r.
  assert (Hr : r = (translated,
     cache_put (utcnow_isoformat w) conn (key_of cfg source_text)
       (translator_name cfg) (cfg_target_lang cfg) source_text translated,
     past ++ [EvTranslate source_text (cfg_target_lang cfg)])).
  { apply lookup_or_translate_miss. now rewrite H. }
  rewrite Hr. cbn [fst snd]. repeat split.
  - unfold cache_put. cbn. apply lookup_insert_eq.
  - intros conn' t. apply lookup_or_translate_hit.
  - intros conn0 H0 Ha.
    rewrite lookup_or_translate_miss by now rewrite H0.
    cbn [fst snd]. rewrite Ha. apply cache_get_put.
Qed.

Lemma C10_cached_empty_is_miss_witness :
  let w := offline_world (fun _ => []) in
  let conn :=
    cache_put (lit "2024-04-30T06:00:00") load_db_fresh
      (key_of sample_config []) (lit "openai") (lit "en") [] [] in
  (lookup_or_translate w sample_config conn [] []).2
  = [EvTranslate [] (lit "en")].
Proof.
  intros w conn.
  apply (C10_cached_empty_is_miss w sample_config conn [] []).
  apply cache_get_put.
Defined.

(** C4, as stated, fails: the description does not hold the source text
    itself but the source text with every newline replaced by "<br/>". *)
Lemma C4_newline_counterexample :
  let w := offline_world (fun _ => []) in
  let e := summary_entry (lit "T") [97; NL; 98] in
  let source_text := entry_source_text w sample_config [] e in
  source_text = [97; NL; 98]
  /\ cache_get load_db_fresh (key_of sample_config source_text) = None
  /\ translate w (entry_past w sample_config [] e) source_text (lit "en") = []
  /\ exists item,
       (process_entry w sample_config load_db_fresh [] e).2 = Some item
       /\ forall rest, item_get item "description"
                       <> DESC_TRANSLATED_OPEN ++ source_text ++ rest.
Proof.
  cbv zeta. split; [vm_compute; reflexivity|].
  split; [reflexivity|]. split; [reflexivity|].
  rewrite process_entry_unseen by reflexivity. cbn [snd].
  eexists. split; [reflexivity|]. intros rest.
  unfold item_get. rewrite make_item_description. cbn [default].
  rewrite lookup_or_translate_miss by reflexivity. cbn [fst snd].
  vm_compute. discriminate.
Qed.

(** C4 (amended): when the truncated source text of an entry misses the
    cache and the backend returns the empty string, the translated block of
    the item's description is that source text with each newline replaced by
    "<br/>", and the cache record stored under the cache key of the source
    text holds the source text itself as [translated]. *)
Theorem C4_substitution_on_failure (w : World) (cfg : Config) (conn : DB)
    (past : list Event) (e : Entry) :
  let source_text := entry_source_text w cfg past e in
  is_seen conn (entry_id e) = false ->
  truthy (or_empty (cache_get conn (key_of cfg source_text))) = false ->
  translate w (entry_past w cfg past e) source_text (cfg_target_lang cfg)
  = [] ->
  exists conn' past' item,
    process_entry w cfg conn past e = (conn', past', Some item)
    /\ item !! lit "description"
       = Some (description_of (replace1 NL BR source_text)
                 (replace1 NL BR (orig_snip source_text)))
    /\ translated_cache conn' !! key_of cfg source_text
       = Some {| created_at := utcnow_isoformat w;
                 translator := translator_name cfg;
                 target_lang := cfg_target_lang cfg;
                 source_len := len source_text;
                 translated := source_text |}.
Proof.
  intros source_text Hseen Hmiss Hans.
  rewrite (process_entry_unseen _ _ _ _ _ Hseen).
  fold source_text. rewrite (lookup_or_translate_miss _ _ _ _ _ Hmiss).
  rewrite Hans. cbn [truthy fst snd].
  eexists _, _, _. split; [reflexivity|]. split.
  - now rewrite make_item_description, build_description_eq.
  - unfold mark_seen, cache_put. cbn. apply lookup_insert_eq.
Qed.

Lemma C4_substitution_on_failure_witness :
  let w := offline_world (fun _ => []) in
  let e := summary_entry (lit "T") [97; NL; 98] in
  exists conn' past' item,
    process_entry w sample_config load_db_fresh [] e
    = (conn', past', Some item)
    /\ item !! lit "description"
       = Some (description_of (lit "a<br/>b") (lit "a<br/>b"))
    /\ translated_cache conn' !! key_of sample_config [97; NL; 98]
       = Some {| created_at := lit "2024-05-01T06:00:00";
                 translator := lit "openai";
                 target_lang := lit "en";
                 source_len := 3;
                 translated := [97; NL; 98] |}.
Proof.
  intros w e.
  apply (C4_substitution_on_failure w sample_config load_db_fresh [] e);
    reflexivity.
Defined.

(** ** The original snippet (C8) *)

Lemma length_replace1_le (old : N) (new s : str) (k : nat) :
  (1 <= k)%nat -> (length new <= k)%nat ->
  (length (replace1 old new s) <= k * length s)%nat.
Proof.
  intros Hk Hnew. unfold replace1.
  induction s as [|c s IH]; cbn [flat_map length]; [lia|].
  rewrite length_app. destruct (c =? old); cbn [length]; lia.
Qed.

Lemma replace1_app (old : N) (new a b : str) :
  replace1 old new (a ++ b) = replace1 old new a ++ replace1 old new b.
Proof. unfold replace1. apply flat_map_app. Qed.

Lemma orig_snip_cases (source_text : str) :
  (len source_text <= 600)%Z /\ orig_snip source_text = source_text
  \/ (600 < len source_text)%Z
     /\ orig_snip source_text = firstn 600 source_text ++ lit "..."
     /\ length (firstn 600 source_text) = 600%nat.
Proof.
  unfold orig_snip, len. destruct (Z.ltb_spec 600 (Z.of_nat (length source_text))).
  - right. split; [assumption|]. split; [reflexivity|].
    apply firstn_length_le. lia.
  - left. split; [assumption | reflexivity].
Qed.

(** C8, as stated, fails: a source text of more than 600 characters is cut
    to its first 600 characters and "..." is appended, so the excerpt in the
    description is 603 characters long. *)
Lemma C8_ellipsis_counterexample :
  let w := offline_world (fun _ => []) in
  let e := summary_entry (lit "T") (repeat 97 601) in
  let excerpt := repeat 97 600 ++ lit "..." in
  exists item,
    (process_entry w sample_config load_db_fresh [] e).2 = Some item
    /\ item !! lit "description"
       = Some (description_of (repeat 97 601) excerpt)
    /\ (600 < length excerpt)%nat.
Proof.
  cbv zeta. rewrite process_entry_unseen by reflexivity. cbn [snd].
  eexists. split; [reflexivity|]. split.
  - rewrite make_item_description, build_description_eq.
    rewrite lookup_or_translate_miss by reflexivity. cbn [fst snd].
    f_equal. all: vm_compute; reflexivity.
  - vm_compute. lia.
Qed.

(** C8 (amended): for every processed entry, the original-language excerpt
    in the description is the source text when that has at most 600
    characters, and otherwise its first 600 characters followed by "..."; in
    the description each of its newlines is written "<br/>".  The excerpt is
    at most 603 characters long, and at most 3003 once newlines are
    expanded. *)
Theorem C8_original_excerpt (w : World) (cfg : Config) (conn : DB)
    (past : list Event) (e : Entry) :
  is_seen conn (entry_id e) = false ->
  let source_text := entry_source_text w cfg past e in
  exists conn' past' item translated_block,
    process_entry w cfg conn past e = (conn', past', Some item)
    /\ item !! lit "description"
       = Some (description_of translated_block
                 (replace1 NL BR (orig_snip source_text)))
    /\ orig_snip source_text
       = (if (600 <? len source_text)%Z
          then firstn 600 source_text ++ lit "..." else source_text)
    /\ (length (orig_snip source_text) <= 603)%nat
    /\ (length (replace1 NL BR (orig_snip source_text)) <= 3003)%nat.
Proof.
  intros Hseen source_text.
  rewrite (process_entry_unseen _ _ _ _ _ Hseen). fold source_text.
  eexists _, _, _, _. split; [reflexivity|]. split.
  { now rewrite make_item_description, build_description_eq. }
  assert (L : (length (orig_snip source_text) <= 603)%nat).
  { destruct (orig_snip_cases source_text) as [[H ->]|(H & -> & L)].
    - unfold len in H. lia.
    - rewrite length_app, L. cbn. lia. }
  split; [|split; [exact L|]].
  - unfold orig_snip, slice_to. reflexivity.
  - assert (B : forall s, (length (replace1 NL BR s) <= 5 * length s)%nat).
    { intros s. apply length_replace1_le; [lia | vm_compute; lia]. }
    destruct (orig_snip_cases source_text) as [[H ->]|(H & -> & L6)].
    + specialize (B source_text). unfold len in H. lia.
    + rewrite replace1_app, length_app.
      specialize (B (firstn 600 source_text)). rewrite L6 in B.
      change (length (replace1 NL BR (lit "..."))) with 3%nat. lia.
Qed.

Lemma C8_original_excerpt_witness :
  let w := offline_world (fun _ => []) in
  let e := summary_entry (lit "T") (repeat 97 601) in
  (length (orig_snip (entry_source_text w sample_config [] e)) <= 603)%nat.
Proof.
  intros w e.
  destruct (C8_original_excerpt w sample_config load_db_fresh [] e)
    as (conn' & past' & item & block & _ & _ & _ & L & _).
  - reflexivity.
  - exact L.
Defined.

(** ** The fetcher (C7) *)

Lemma fetch_url_failure (w : World) (past : list Event) (url : str)
    (timeout : Z) :
  requests_get w past url UA timeout = Raised
  \/ (exists r, requests_get w past url UA timeout = Returned r
                /\ (400 <= status_code r)%Z) ->
  fetch_url w past url timeout = None.
Proof.
  unfold fetch_url. intros [-> | (r & -> & H)]; [reflexivity|].
  destruct (Z.leb_spec 400 (status_code r)); [reflexivity | lia].
Qed.



(** ** The set of seen items only grows (C1) *)

Lemma is_seen_true (conn : DB) (item_id : str) :
  is_seen conn item_id = true <-> is_Some (seen_items conn !! item_id).
Proof. unfold is_seen. apply bool_decide_eq_true. Qed.

Lemma is_seen_mark_seen (now : str) (conn : DB) (item_id : str) :
  is_seen (mark_seen now conn item_id) item_id = true.
Proof.
  apply is_seen_true. unfold mark_seen. cbn.
  destruct (seen_items conn !! item_id) eqn:E.
  - rewrite E. eauto.
  - rewrite lookup_insert_eq. eauto.
Qed.

Lemma is_seen_mark_seen_mono (now : str) (conn : DB) (item_id x : str) :
  is_seen conn x = true -> is_seen (mark_seen now conn item_id) x = true.
Proof.
  rewrite !is_seen_true. unfold mark_seen. cbn.
  destruct (seen_items conn !! item_id) eqn:E; [easy|].
  intros H. destruct (decide (item_id = x)) as [->|Hne].
  - rewrite lookup_insert_eq. eauto.
  - now rewrite lookup_insert_ne.
Qed.

Lemma lookup_or_translate_seen_items (w : World) (cfg : Config) (conn : DB)
    (past : list Event) (source_text : str) :
  seen_items (lookup_or_translate w cfg conn past source_text).1.2
  = seen_items conn.
Proof.
  unfold lookup_or_translate.
  destruct (truthy (or_empty (cache_get conn _))); reflexivity.
Qed.

Lemma is_seen_ext (conn conn' : DB) (x : str) :
  seen_items conn' = seen_items conn -> is_seen conn' x = is_seen conn x.
Proof. unfold is_seen. now intros ->. Qed.

Lemma process_entry_marks (w : World) (cfg : Config) (conn : DB)
    (past : list Event) (e : Entry) :
  is_seen (process_entry w cfg conn past e).1.1 (entry_id e) = true.
Proof.
  destruct (is_seen conn (entry_id e)) eqn:Hseen.
  - now rewrite process_entry_seen.
  - rewrite (process_entry_unseen _ _ _ _ _ Hseen). cbn [fst].
    apply is_seen_mark_seen.
Qed.

Lemma process_entry_seen_mono (w : World) (cfg : Config) (conn : DB)
    (past : list Event) (e : Entry) (x : str) :
  is_seen conn x = true ->
  is_seen (process_entry w cfg conn past e).1.1 x = true.
Proof.
  intros Hx. destruct (is_seen conn (entry_id e)) eqn:Hseen.
  - now rewrite process_entry_seen.
  - rewrite (process_entry_unseen _ _ _ _ _ Hseen). cbn [fst].
    apply is_seen_mark_seen_mono.
    now rewrite (is_seen_ext conn)
      by apply lookup_or_translate_seen_items.
Qed.

Lemma process_entries_seen_mono (w : World) (cfg : Config)
    (entries : list Entry) (conn : DB) (past : list Event) (x : str) :
  is_seen conn x = true ->
  is_seen (process_entries w cfg conn past entries).1.1 x = true.
Proof.
  revert conn past. induction entries as [|e rest IH]; intros conn past Hx.
  - exact Hx.
  - cbn [process_entries].
    pose proof (process_entry_seen_mono w cfg conn past e x Hx) as H1.
    destruct (process_entry w cfg conn past e) as [[conn1 past1] it].
    cbn [fst] in H1. specialize (IH conn1 past1 H1).
    destruct (process_entries w cfg conn1 past1 rest) as [[conn2 past2] its].
    exact IH.
Qed.

Lemma process_entries_marks (w : World) (cfg : Config)
    (entries : list Entry) (conn : DB) (past : list Event) (e : Entry) :
  In e entries ->
  is_seen (process_entries w cfg conn past entries).1.1 (entry_id e) = true.
Proof.
  revert conn past. induction entries as [|e0 rest IH]; intros conn past Hin.
  - destruct Hin.
  - cbn [process_entries].
    pose proof (process_entry_marks w cfg conn past e0) as H0.
    pose proof (process_entries_seen_mono w cfg rest
                  (process_entry w cfg conn past e0).1.1
                  (process_entry w cfg conn past e0).1.2) as Hmono.
    specialize (IH (process_entry w cfg conn past e0).1.1
                   (process_entry w cfg conn past e0).1.2).
    destruct (process_entry w cfg conn past e0) as [[conn1 past1] it].
    cbn [fst snd] in *.
    destruct (process_entries w cfg conn1 past1 rest) as [[conn2 past2] its].
    cbn [fst] in *.
    destruct Hin as [<- | Hin]; [now apply Hmono | now apply IH].
Qed.

Lemma process_entries_all_seen (w : World) (cfg : Config)
    (entries : list Entry) (conn : DB) (past : list Event) :
  (forall e, In e entries -> is_seen conn (entry_id e) = true) ->
  process_entries w cfg conn past entries = (conn, past, []).
Proof.
  induction entries as [|e rest IH]; intros Hall; [reflexivity|].
  cbn [process_entries].
  rewrite process_entry_seen by (apply Hall; now left).
  rewrite IH by (intros e' He'; apply Hall; now right).
  reflexivity.
Qed.

Lemma process_feed_seen_mono (w : World) (cfg : Config) (conn : DB)
    (past : list Event) (feed : str * str) (x : str) :
  is_seen conn x = true ->
  is_seen (process_feed w cfg conn past feed).1.1 x = true.
Proof.
  intros Hx. unfold process_feed.
  pose proof (process_entries_seen_mono w cfg
    (cap_entries (feedparser_entries w feed.2) (cfg_max_items cfg))
    conn past x Hx) as H.
  destruct (process_entries _ _ _ _ _) as [[conn1 past1] items]. exact H.
Qed.

Lemma process_feed_marks (w : World) (cfg : Config) (conn : DB)
    (past : list Event) (feed : str * str) (e : Entry) :
  In e (cap_entries (feedparser_entries w feed.2) (cfg_max_items cfg)) ->
  is_seen (process_feed w cfg conn past feed).1.1 (entry_id e) = true.
Proof.
  intros Hin. unfold process_feed.
  pose proof (process_entries_marks w cfg _ conn past e Hin) as H.
  destruct (process_entries _ _ _ _ _) as [[conn1 past1] items]. exact H.
Qed.

Lemma process_feeds_seen_mono (w : World) (cfg : Config)
    (feeds : list (str * str)) (conn : DB) (past : list Event) (x : str) :
  is_seen conn x = true ->
  is_seen (process_feeds w cfg conn past feeds).1.1 x = true.
Proof.
  revert conn past. induction feeds as [|f rest IH]; intros conn past Hx.
  - exact Hx.
  - cbn [process_feeds].
    pose proof (process_feed_seen_mono w cfg conn past f x Hx) as H1.
    destruct (process_feed w cfg conn past f) as [[conn1 past1] o].
    specialize (IH conn1 past1 H1).
    destruct (process_feeds w cfg conn1 past1 rest) as [[conn2 past2] os].
    exact IH.
Qed.

Lemma process_feeds_marks (w : World) (cfg : Config)
    (feeds : list (str * str)) (conn : DB) (past : list Event)
    (f : str * str) (e : Entry) :
  In f feeds ->
  In e (cap_entries (feedparser_entries w f.2) (cfg_max_items cfg)) ->
  is_seen (process_feeds w cfg conn past feeds).1.1 (entry_id e) = true.
Proof.
  revert conn past. induction feeds as [|f0 rest IH]; intros conn past Hf He.
  - destruct Hf.
  - cbn [process_feeds].
    pose proof (process_feed_marks w cfg conn past f0 e) as H0.
    pose proof (process_feeds_seen_mono w cfg rest
                  (process_feed w cfg conn past f0).1.1
                  (process_feed w cfg conn past f0).1.2 (entry_id e)) as Hmono.
    specialize (IH (process_feed w cfg conn past f0).1.1
                   (process_feed w cfg conn past f0).1.2).
    destruct (process_feed w cfg conn past f0) as [[conn1 past1] o].
    cbn [fst snd] in *.
    destruct (process_feeds w cfg conn1 past1 rest) as [[conn2 past2] os].
    cbn [fst] in *.
    destruct Hf as [<- | Hf]; [now apply Hmono, H0 | now apply IH].
Qed.

(** The document written for a feed without new items. *)
Lemma process_feeds_all_seen (w : World) (cfg : Config)
    (feeds : list (str * str)) (conn : DB) (past : list Event) :
  (forall f e, In f feeds ->
     In e (cap_entries (feedparser_entries w f.2) (cfg_max_items cfg)) ->
     is_seen conn (entry_id e) = true) ->
  process_feeds w cfg conn past feeds
  = (conn, past,
     List.map (fun f => {| out_feed := f; out_items := [];
                           rss_xml := build_rss (utcnow_rfc822 w)
                             (out_title f.1 (cfg_target_lang cfg)) [] |})
       feeds).
Proof.
  induction feeds as [|f rest IH]; intros Hall; [reflexivity|].
  cbn [process_feeds List.map]. unfold process_feed at 1.
  rewrite process_entries_all_seen
    by (intros e He; apply (Hall f e); [now left | exact He]).
  rewrite IH by (intros f' e' Hf' He'; apply (Hall f' e');
                 [now right | exact He']).
  reflexivity.
Qed.

(** C1: when the pipeline is run a second time over the same feed list, with
    the feeds holding the same entries, every feed's document has no item,
    nothing is fetched, extracted or translated (the run has no event) and
    the database is left as it was; every entry of the first run is marked
    seen, and an entry marked seen is skipped whatever else changed. *)
Theorem C1_rerun_idempotent (w w' : World) (cfg cfg' : Config) (conn : DB)
    (feeds : list (str * str)) :
  (forall url, feedparser_entries w' url = feedparser_entries w url) ->
  cfg_max_items cfg' = cfg_max_items cfg ->
  let conn1 := (main w cfg conn feeds).1.1 in
  main w' cfg' conn1 feeds
  = (conn1, [],
     List.map (fun f => {| out_feed := f; out_items := [];
                           rss_xml := build_rss (utcnow_rfc822 w')
                             (out_title f.1 (cfg_target_lang cfg')) [] |})
       feeds)
  /\ (forall f e, In f feeds ->
        In e (cap_entries (feedparser_entries w f.2) (cfg_max_items cfg)) ->
        is_seen conn1 (entry_id e) = true)
  /\ (forall e past, is_seen conn1 (entry_id e) = true ->
        process_entry w' cfg' conn1 past e = (conn1, past, None)).
Proof.
  intros Hentries Hmax conn1.
  assert (Hall : forall f e, In f feeds ->
        In e (cap_entries (feedparser_entries w f.2) (cfg_max_items cfg)) ->
        is_seen conn1 (entry_id e) = true).
  { intros f e Hf He. subst conn1. unfold main.
    now apply (process_feeds_marks w cfg feeds conn [] f e). }
  split; [|split; [exact Hall|]].
  - unfold main at 1. apply process_feeds_all_seen.
    intros f e Hf He. rewrite Hentries, Hmax in He. now apply (Hall f e).
  - intros e past. apply process_entry_seen.
Qed.

Lemma C1_rerun_idempotent_witness :
  let feeds := [(lit "Granma", granma_url)] in
  let run1 := main granma_world sample_config load_db_fresh feeds in
  let run2 := main granma_world sample_config run1.1.1 feeds in
  List.map (fun o => length (out_items o)) run1.2 = [2%nat]
  /\ run2.1.2 = []
  /\ List.map (fun o => length (out_items o)) run2.2 = [0%nat].
Proof.
  intros feeds run1 run2.
  split; [vm_compute; reflexivity|].
  destruct (C1_rerun_idempotent granma_world granma_world
              sample_config sample_config load_db_fresh feeds)
    as (H & _ & _).
  - reflexivity.
  - reflexivity.
  - subst run2 run1. rewrite H. split; reflexivity.
Defined.

(** ** Backend calls per source text (C6) *)

Lemma translate_calls_app (text lang : str) (a b : list Event) :
  translate_calls text lang (a ++ b)
  = (translate_calls text lang a + translate_calls text lang b)%nat.
Proof. unfold translate_calls. now rewrite List.filter_app, length_app. Qed.

Lemma cached_nonempty_truthy (conn : DB) (key : str) :
  cached_nonempty conn key <-> truthy (or_empty (cache_get conn key)) = true.
Proof.
  unfold cached_nonempty. split.
  - intros (t & -> & Ht). destruct t; [contradiction | reflexivity].
  - destruct (cache_get conn key) as [[|c t]|]; cbn; try discriminate.
    intros _. eexists. split; [reflexivity | discriminate].
Qed.

Lemma cache_get_put_ne (now : str) (conn : DB) (key key' b l s t : str) :
  key <> key' ->
  cache_get (cache_put now conn key b l s t) key' = cache_get conn key'.
Proof.
  intros Hne. unfold cache_get, cache_put. cbn.
  now rewrite lookup_insert_ne.
Qed.

Lemma cache_get_mark_seen (now : str) (conn : DB) (item_id key : str) :
  cache_get (mark_seen now conn item_id) key = cache_get conn key.
Proof. reflexivity. Qed.

Section AtMostOnce.

Variable cfg : Config.
Variable text : str.
Hypothesis text_nonempty : text <> [].

Local Abbreviation at_most_once := (at_most_once cfg text).

Lemma at_most_once_other_event (n : nat) (conn : DB) (trace : list Event)
    (ev : Event) :
  is_translate_of text (cfg_target_lang cfg) ev = false ->
  at_most_once n conn trace -> at_most_once n conn (trace ++ [ev]).
Proof.
  intros Hev [H1 H2]. unfold at_most_once.
  rewrite translate_calls_app. unfold translate_calls at 2 4.
  cbn [List.filter]. rewrite Hev. cbn [length].
  rewrite Nat.add_0_r. now split.
Qed.

Lemma lookup_or_translate_once (w : World) (n : nat) (conn : DB)
    (past : list Event) (source_text : str) :
  at_most_once n conn past ->
  let r := lookup_or_translate w cfg conn past source_text in
  at_most_once n r.1.2 r.2.
Proof.
  intros [H1 H2].
  destruct (truthy (or_empty (cache_get conn (key_of cfg source_text))))
    eqn:Hhit.
  - unfold lookup_or_translate. fold (key_of cfg source_text).
    rewrite Hhit. cbn [fst snd]. now split.
  - rewrite (lookup_or_translate_miss _ _ _ _ _ Hhit). cbn [fst snd].
    destruct (decide (source_text = text)) as [->|Hne].
    + assert (H0 : (n + translate_calls text (cfg_target_lang cfg) past
                    = 0)%nat).
      { destruct (n + translate_calls text (cfg_target_lang cfg) past)%nat
          as [|k] eqn:E; [reflexivity|].
        assert (Hc : cached_nonempty conn (key_of cfg text))
          by (apply H2; lia).
        apply cached_nonempty_truthy in Hc. congruence. }
      unfold at_most_once. rewrite translate_calls_app.
      unfold translate_calls at 2 4. cbn [List.filter is_translate_of].
      rewrite bool_decide_eq_true_2 by easy. cbn [length].
      split; [lia|]. intros _.
      unfold cached_nonempty. rewrite cache_get_put.
      eexists. split; [reflexivity|].
      destruct (translate w past text (cfg_target_lang cfg)); cbn;
        [assumption | discriminate].
    + assert (Hev : is_translate_of text (cfg_target_lang cfg)
                      (EvTranslate source_text (cfg_target_lang cfg))
                    = false).
      { cbn. apply bool_decide_eq_false_2. now intros [? _]. }
      unfold at_most_once. rewrite translate_calls_app.
      unfold translate_calls at 2 4. cbn [List.filter]. rewrite Hev.
      cbn [length]. rewrite Nat.add_0_r. split; [exact H1|].
      intros Hn. specialize (H2 Hn).
      destruct (decide (key_of cfg source_text = key_of cfg text))
        as [Hk|Hk].
      * apply cached_nonempty_truthy in H2. rewrite <- Hk in H2.
        congruence.
      * unfold cached_nonempty. now rewrite cache_get_put_ne.
Qed.

Lemma fetch_article_once (w : World) (n : nat) (conn : DB)
    (past : list Event) (link : str) :
  at_most_once n conn past ->
  at_most_once n conn (fetch_article w cfg past link).2.
Proof.
  intros H. unfold fetch_article.
  destruct (truthy link); [|exact H].
  destruct (fetch_url w past link (cfg_timeout cfg)) as [html|];
    [destruct (truthy html)|]; cbn [snd];
    repeat apply at_most_once_other_event; easy.
Qed.

Lemma process_entry_once (w : World) (n : nat) (conn : DB)
    (past : list Event) (e : Entry) :
  at_most_once n conn past ->
  let r := process_entry w cfg conn past e in
  at_most_once n r.1.1 r.1.2.
Proof.
  intros H. destruct (is_seen conn (entry_id e)) eqn:Hseen.
  - now rewrite process_entry_seen.
  - rewrite (process_entry_unseen _ _ _ _ _ Hseen). cbn [fst snd].
    pose proof (lookup_or_translate_once w n conn
                  (entry_past w cfg past e)
                  (entry_source_text w cfg past e)
                  (fetch_article_once w n conn past _ H)) as [K1 K2].
    split; [exact K1|]. intros Hn. specialize (K2 Hn).
    unfold cached_nonempty in *. now rewrite cache_get_mark_seen.
Qed.

Lemma process_entries_once (w : World) (n : nat) (entries : list Entry)
    (conn : DB) (past : list Event) :
  at_most_once n conn past ->
  let r := process_entries w cfg conn past entries in
  at_most_once n r.1.1 r.1.2.
Proof.
  revert conn past. induction entries as [|e rest IH]; intros conn past H.
  - exact H.
  - cbn [process_entries].
    pose proof (process_entry_once w n conn past e H) as H1.
    destruct (process_entry w cfg conn past e) as [[conn1 past1] it].
    specialize (IH conn1 past1 H1).
    destruct (process_entries w cfg conn1 past1 rest)
      as [[conn2 past2] its].
    exact IH.
Qed.

Lemma process_feeds_once (w : World) (n : nat) (feeds : list (str * str))
    (conn : DB) (past : list Event) :
  at_most_once n conn past ->
  let r := process_feeds w cfg conn past feeds in
  at_most_once n r.1.1 r.1.2.
Proof.
  revert conn past. induction feeds as [|f rest IH]; intros conn past H.
  - exact H.
  - cbn [process_feeds]. unfold process_feed.
    pose proof (process_entries_once w n
      (cap_entries (feedparser_entries w f.2) (cfg_max_items cfg))
      conn past H) as H1.
    destruct (process_entries _ _ _ _ _) as [[conn1 past1] items].
    specialize (IH conn1 past1 H1).
    destruct (process_feeds w cfg conn1 past1 rest) as [[conn2 past2] os].
    exact IH.
Qed.

End AtMostOnce.




(** ** Binary64 rounding of [max_chars * 0.7] and [max_chars * 0.3] *)

Section FloatBounds.
Local Open Scope Z_scope.

(** The two literals are the doubles nearest to 7/10 and 3/10: 53-bit
    significands, within half a unit in the last place. *)
Example c0_7_nearest :
  2 ^ 52 <= Float64.mant Float64.c0_7 < 2 ^ 53
  /\ Z.abs (10 * Float64.mant Float64.c0_7 - 7 * 2 ^ 53) <= 5.
Proof. vm_compute. repeat split; discriminate. Qed.

Example c0_3_nearest :
  2 ^ 52 <= Float64.mant Float64.c0_3 < 2 ^ 53
  /\ Z.abs (10 * Float64.mant Float64.c0_3 - 3 * 2 ^ 54) <= 5.
Proof. vm_compute. repeat split; discriminate. Qed.

Example int_mul_samples :
  int_mul_0_7 12000 = 8400 /\ int_mul_0_3 12000 = 3600
  /\ int_mul_0_7 10 = 7 /\ int_mul_0_3 10 = 3
  /\ int_mul_0_7 90 = 62 /\ int_mul_0_3 3 = 0.
Proof. vm_compute. repeat split; reflexivity. Qed.

Lemma round53_exact (m e : Z) :
  0 <= m < 2 ^ 53 -> Float64.round53 m e = Float64.mk m e.
Proof.
  intros [H0 H1]. unfold Float64.round53.
  assert (K : Z.max 0 (Z.log2 (Z.abs m) + 1 - 53) = 0).
  { rewrite Z.abs_eq by assumption.
    destruct (Z.eq_dec m 0) as [->|Hm]; [reflexivity|].
    assert (Z.log2 m < 53) by (apply Z.log2_lt_pow2; lia). lia. }
  rewrite K. cbn [Z.eqb negb andb]. rewrite Z.add_0_r.
  rewrite Z.abs_eq by assumption. change (2 ^ 0) with 1. rewrite Z.div_1_r.
  f_equal. destruct (Z.eq_dec m 0) as [->|Hm]; [reflexivity|].
  rewrite Z.sgn_pos by lia. lia.
Qed.

(** Rounding a positive value: the result [q * 2 ^ k] is within a relative
    error of [2 ^ -53]. *)
Lemma round53_error (m e : Z) :
  0 < m ->
  exists q k, Float64.round53 m e = Float64.mk q (e + k)
    /\ 0 <= k /\ 0 <= q
    /\ 2 ^ 53 * (q * 2 ^ k - m) <= m
    /\ 2 ^ 53 * (m - q * 2 ^ k) <= m.
Proof.
  intros Hm. unfold Float64.round53.
  rewrite Z.abs_eq by lia. rewrite Z.sgn_pos by assumption.
  set (k := Z.max 0 (Z.log2 m + 1 - 53)).
  set (q := m / 2 ^ k). set (r := m mod 2 ^ k).
  assert (Hk : 0 <= k) by lia.
  assert (Hp : 0 < 2 ^ k) by (apply Z.pow_pos_nonneg; lia).
  assert (Hdm : m = 2 ^ k * q + r) by (apply Z.div_mod; lia).
  assert (Hr : 0 <= r < 2 ^ k) by (apply Z.mod_pos_bound; lia).
  assert (Hq : 0 <= q) by (apply Z.div_pos; lia).
  destruct (Z.eq_dec k 0) as [K0|K0].
  - exists q, k. rewrite K0 in *. cbn [Z.eqb negb andb].
    change (2 ^ 0) with 1 in *. rewrite Z.mul_1_l.
    repeat split; try lia.
  - assert (Hlog : Z.log2 m = k + 52) by lia.
    assert (Hlow : 2 ^ (k + 52) <= m).
    { rewrite <- Hlog. apply Z.log2_spec. assumption. }
    assert (Hhalf : 2 ^ k = 2 * 2 ^ (k - 1)).
    { rewrite <- Z.pow_succ_r by lia. f_equal. lia. }
    assert (H52 : 2 ^ (k + 52) = 2 ^ 53 * 2 ^ (k - 1)).
    { rewrite <- Z.pow_add_r by lia. f_equal. lia. }
    destruct (Z.eqb_spec k 0) as [?|_]; [contradiction|]. cbn [negb andb].
    set (half := 2 ^ (k - 1)) in *.
    rewrite Z.mul_1_l.
    destruct (Z.ltb_spec half r) as [Hlt|Hge]; cbn [orb].
    + exists (q + 1), k. repeat split; try lia.
    + destruct (Z.eqb_spec r half) as [Heq|Hneq]; cbn [andb].
      * destruct (Z.odd q).
        -- exists (q + 1), k. repeat split; try lia.
        -- exists q, k. repeat split; try lia.
      * exists q, k. repeat split; try lia.
Qed.

Lemma to_int_scaled (q k e : Z) :
  0 <= q -> 0 <= k -> e < 0 ->
  Float64.to_int (Float64.mk q (e + k)) = (q * 2 ^ k) / 2 ^ (- e).
Proof.
  intros Hq Hk He. unfold Float64.to_int. cbn [Float64.expo Float64.mant].
  destruct (Z.leb_spec 0 (e + k)) as [H|H].
  - assert (E : 2 ^ k = 2 ^ (e + k) * 2 ^ (- e)).
    { rewrite <- Z.pow_add_r by lia. f_equal. lia. }
    rewrite E, Z.mul_assoc.
    rewrite Z.div_mul; [reflexivity|].
    apply Z.pow_nonzero; lia.
  - assert (Hp : 0 < 2 ^ (- (e + k))) by (apply Z.pow_pos_nonneg; lia).
    rewrite Z.quot_div_nonneg by lia.
    assert (E : 2 ^ (- e) = 2 ^ (- (e + k)) * 2 ^ k).
    { rewrite <- Z.pow_add_r by lia. f_equal. lia. }
    rewrite E.
    rewrite Z.div_mul_cancel_r; [reflexivity| lia |].
    apply Z.pow_nonzero; lia.
Qed.

Lemma int_mul_0_7_bounds (n : Z) :
  4 <= n < 2 ^ 50 ->
  7 * n / 10 - 1 <= int_mul_0_7 n <= 7 * n / 10 /\ 1 <= int_mul_0_7 n.
Proof.
  intros Hn. change (2 ^ 50) with 1125899906842624 in Hn.
  unfold int_mul_0_7, Float64.of_int, Float64.mul.
  rewrite (round53_exact n 0) by (change (2 ^ 53) with 9007199254740992; lia).
  cbn [Float64.mant Float64.expo Float64.c0_7].
  destruct (round53_error (n * 0x16666666666666) (0 + -53))
    as (q & k & -> & Hk & Hq & E1 & E2); [lia|].
  rewrite to_int_scaled by lia.
  change (2 ^ (- -53)) with 9007199254740992.
  change (2 ^ 53) with 9007199254740992 in *.
  set (R := q * 2 ^ k) in *. clearbody R.
  Z.div_mod_to_equations. lia.
Qed.

Lemma int_mul_0_3_bounds (n : Z) :
  4 <= n < 2 ^ 50 ->
  3 * n / 10 - 1 <= int_mul_0_3 n <= 3 * n / 10 /\ 1 <= int_mul_0_3 n.
Proof.
  intros Hn. change (2 ^ 50) with 1125899906842624 in Hn.
  unfold int_mul_0_3, Float64.of_int, Float64.mul.
  rewrite (round53_exact n 0) by (change (2 ^ 53) with 9007199254740992; lia).
  cbn [Float64.mant Float64.expo Float64.c0_3].
  destruct (round53_error (n * 0x13333333333333) (0 + -54))
    as (q & k & -> & Hk & Hq & E1 & E2); [lia|].
  rewrite to_int_scaled by lia.
  change (2 ^ (- -54)) with 18014398509481984.
  change (2 ^ 53) with 9007199254740992 in *.
  set (R := q * 2 ^ k) in *. clearbody R.
  Z.div_mod_to_equations. lia.
Qed.

End FloatBounds.

Local Open Scope N_scope.

Lemma lstrip_spec (s : str) :
  exists a, s = a ++ lstrip s /\ Forall (fun c => isspace c = true) a.
Proof.
  induction s as [|c s (a & E & F)]; [now exists []|].
  cbn [lstrip]. destruct (isspace c) eqn:Hc.
  - exists (c :: a). split; [cbn; now f_equal | now constructor].
  - now exists [].
Qed.

Lemma lstrip_head (s : str) (c : N) (r : str) :
  lstrip s = c :: r -> isspace c = false.
Proof.
  induction s as [|c0 s IH]; cbn [lstrip]; [discriminate|].
  destruct (isspace c0) eqn:Hc; [exact IH|].
  now intros [= -> _].
Qed.

Lemma rstrip_spec (s : str) :
  exists b, s = rstrip s ++ b /\ Forall (fun c => isspace c = true) b.
Proof.
  destruct (lstrip_spec (rev s)) as (a & E & F).
  exists (rev a). split.
  - unfold rstrip. rewrite <- rev_app_distr, <- E. now rewrite rev_involutive.
  - now apply Forall_rev.
Qed.

Lemma rstrip_last (s r : str) (c : N) :
  rstrip s = r ++ [c] -> isspace c = false.
Proof.
  unfold rstrip. intros E. apply (f_equal (@rev N)) in E.
  rewrite rev_involutive, rev_app_distr in E. cbn in E.
  now apply lstrip_head in E.
Qed.

(** [strip] removes a whitespace prefix and a whitespace suffix, and what is
    left neither begins nor ends with whitespace. *)
Lemma strip_spec (text : str) :
  exists a b, text = a ++ strip text ++ b
    /\ Forall (fun c => isspace c = true) a
    /\ Forall (fun c => isspace c = true) b
    /\ (forall c r, strip text = c :: r -> isspace c = false)
    /\ (forall r c, strip text = r ++ [c] -> isspace c = false).
Proof.
  destruct (lstrip_spec text) as (a & Ea & Fa).
  destruct (rstrip_spec (lstrip text)) as (b & Eb & Fb).
  exists a, b. unfold strip. split; [now rewrite <- Eb|].
  split; [exact Fa|]. split; [exact Fb|]. split.
  - intros c r E. rewrite E in Eb. now apply lstrip_head in Eb.
  - intros r c. apply rstrip_last.
Qed.

(** ** The truncator (C3) *)

Lemma truncated_divider_length : length TRUNCATED_DIVIDER = 21%nat.
Proof. reflexivity. Qed.

(** C3 (amended): for every text and every max_chars from 4 up to 2^50, let
    s be the text with leading and trailing whitespace trimmed.  If
    len(s) <= max_chars the truncator returns s.  Otherwise it returns the
    first h characters of s, then the divider "[...TRUNCATED...]" between two
    pairs of newlines (21 characters), then the last t characters of s,
    where h = int(max_chars * 0.7) and t = int(max_chars * 0.3) in binary64
    arithmetic: h is floor(0.7 * max_chars) or one less, t is
    floor(0.3 * max_chars) or one less and at least 1 (8400 and 3600 at the
    default 12000).  The output is h + 21 + t <= max_chars + 21 characters
    long, begins with the head slice of s and ends with the tail slice
    of s. *)
Theorem C3_truncation (text : str) (max_chars : Z) :
  (4 <= max_chars < 2 ^ 50)%Z ->
  let s := strip text in
  let h := int_mul_0_7 max_chars in
  let t := int_mul_0_3 max_chars in
  let out := truncate_for_translation text max_chars in
  ((len s <= max_chars)%Z -> out = s)
  /\ ((max_chars < len s)%Z ->
      out = firstn (Z.to_nat h) s ++ TRUNCATED_DIVIDER
            ++ skipn (length s - Z.to_nat t) s
      /\ firstn (Z.to_nat h) out = firstn (Z.to_nat h) s
      /\ skipn (length out - Z.to_nat t) out
         = skipn (length s - Z.to_nat t) s
      /\ length (firstn (Z.to_nat h) s) = Z.to_nat h
      /\ length (skipn (length s - Z.to_nat t) s) = Z.to_nat t
      /\ len out = (h + 21 + t)%Z
      /\ (len out <= max_chars + 21)%Z)
  /\ (7 * max_chars / 10 - 1 <= h <= 7 * max_chars / 10)%Z
  /\ (3 * max_chars / 10 - 1 <= t <= 3 * max_chars / 10)%Z
  /\ (1 <= t)%Z
  /\ (max_chars = 12000%Z -> h = 8400%Z /\ t = 3600%Z)
  /\ exists a b, text = a ++ s ++ b
       /\ Forall (fun c => isspace c = true) a
       /\ Forall (fun c => isspace c = true) b
       /\ (forall c r, s = c :: r -> isspace c = false)
       /\ (forall r c, s = r ++ [c] -> isspace c = false).
Proof.
  intros Hm s h t out.
  destruct (int_mul_0_7_bounds max_chars Hm) as [Hh Hh1].
  destruct (int_mul_0_3_bounds max_chars Hm) as [Ht Ht1].
  fold h in Hh, Hh1. fold t in Ht, Ht1.
  change (2 ^ 50)%Z with 1125899906842624%Z in Hm.
  assert (Hsum : (h + t <= max_chars)%Z).
  { clearbody h t. Z.div_mod_to_equations. lia. }
  split; [|split; [|split; [exact Hh|split; [exact Ht|split; [exact Ht1|split]]]]].
  - intros Hle. subst out. unfold truncate_for_translation. fold s.
    destruct (Z.leb_spec (len s) max_chars); [reflexivity | lia].
  - intros Hgt.
    assert (Hout : out = firstn (Z.to_nat h) s ++ TRUNCATED_DIVIDER
                         ++ skipn (length s - Z.to_nat t) s).
    { subst out. unfold truncate_for_translation. fold s.
      destruct (Z.leb_spec (len s) max_chars); [lia|].
      fold h t. unfold slice_to, slice_from.
      destruct (Z.ltb_spec h 0); [lia|].
      destruct (Z.ltb_spec (- t) 0); [|lia].
      do 3 f_equal. unfold len. lia. }
    unfold len in Hgt.
    assert (L1 : length (firstn (Z.to_nat h) s) = Z.to_nat h).
    { apply firstn_length_le. lia. }
    assert (L2 : length (skipn (length s - Z.to_nat t) s) = Z.to_nat t).
    { rewrite length_skipn. lia. }
    assert (L : length out = (Z.to_nat h + 21 + Z.to_nat t)%nat).
    { rewrite Hout, !length_app, L1, L2, truncated_divider_length. lia. }
    split; [exact Hout|]. split.
    { rewrite Hout at 1. rewrite firstn_app, L1, Nat.sub_diag.
      cbn [firstn]. rewrite app_nil_r.
      now rewrite List.firstn_firstn, Nat.min_id. }
    split.
    { rewrite L. rewrite Hout at 1.
      rewrite app_assoc, skipn_app.
      rewrite length_app, L1, truncated_divider_length.
      replace (Z.to_nat h + 21 + Z.to_nat t - Z.to_nat t
               - (Z.to_nat h + 21))%nat with 0%nat by lia.
      cbn [skipn].
      rewrite skipn_all2; [reflexivity|].
      rewrite length_app, L1, truncated_divider_length. lia. }
    split; [exact L1|]. split; [exact L2|].
    unfold len. rewrite L. lia.
  - intros ->. subst h t. vm_compute. split; reflexivity.
  - apply strip_spec.
Qed.

Lemma C3_truncation_witness :
  let text := lit "  abcdefghijk  " in
  truncate_for_translation text 10
  = lit "abcdefg" ++ TRUNCATED_DIVIDER ++ lit "ijk"
  /\ len (truncate_for_translation text 10) = 31%Z.
Proof.
  intros text.
  destruct (C3_truncation text 10) as (_ & H & _).
  - split; [lia | reflexivity].
  - destruct H as (H1 & _ & _ & _ & _ & H2 & _); [reflexivity|].
    split; [exact H1 | exact H2].
Defined.

(** C3, as stated, fails: the length test and both slices are taken on the
    trimmed text, not on the input; the divider is written between two
    pairs of newlines, so it adds 21 characters, not 17; and the slice
    lengths are computed in floating point ([int(90 * 0.7)] is 62). *)
Lemma C3_trim_divider_counterexample :
  let text := lit "  abcdefghijk  " in
  let out := truncate_for_translation text 10 in
  (10 < len text)%Z
  /\ out <> firstn 7 text ++ lit "[...TRUNCATED...]"
            ++ skipn (length text - 3) text
  /\ firstn 7 out <> firstn 7 text
  /\ skipn (length out - 3) out <> skipn (length text - 3) text
  /\ (10 + length (lit "[...TRUNCATED...]") < length out)%nat
  /\ int_mul_0_7 90 = 62%Z /\ (7 * 90 / 10 = 63)%Z.
Proof.
  vm_compute. repeat split; try discriminate; try reflexivity; lia.
Qed.

(** ** The feed writer (C9) *)

Lemma join_cons (sep p : str) (rest : list str) :
  join sep (p :: rest) = p ++ flat_map (fun q => sep ++ q) rest.
Proof.
  revert p. induction rest as [|q rest IH]; intros p.
  - cbn. now rewrite app_nil_r.
  - change (join sep (p :: q :: rest)) with (p ++ sep ++ join sep (q :: rest)).
    rewrite IH. cbn [flat_map]. now rewrite <- !app_assoc.
Qed.

Lemma item_lines_block (it : gmap str str) :
  flat_map (fun q => [NL] ++ q) (item_lines it) = spec_item_block it.
Proof.
  unfold item_lines, spec_item_block.
  destruct (truthy (item_get it "pubDate")); cbn [flat_map app];
    rewrite ?app_nil_r; repeat (rewrite <- ?app_assoc; cbn [app]);
    reflexivity.
Qed.

Lemma build_rss_spec (now feed_title : str) (items : list (gmap str str)) :
  build_rss now feed_title items = spec_document now feed_title items.
Proof.
  unfold build_rss, spec_document, spec_channel_content.
  assert (E : flat_map (fun q => [NL] ++ q) (flat_map item_lines items)
              = concat (List.map spec_item_block items)).
  { induction items as [|it items IH]; [reflexivity|].
    cbn [flat_map List.map concat].
    now rewrite flat_map_app, item_lines_block, IH. }
  cbn [app]. rewrite join_cons. cbn [flat_map]. rewrite flat_map_app, E.
  cbn [flat_map]. rewrite ?app_nil_r.
  repeat (rewrite <- ?app_assoc; cbn [app]). reflexivity.
Qed.

(** *** Escaping *)

Lemma esc_app (a b : str) : esc (a ++ b) = esc a ++ esc b.
Proof. unfold esc, replace1. now rewrite !flat_map_app. Qed.

Lemma esc_cons (c : N) (s : str) : esc (c :: s) = esc_char c ++ esc s.
Proof.
  change (c :: s) with ([c] ++ s). rewrite esc_app. f_equal.
  unfold esc_char, esc, replace1.
  destruct (N.eqb_spec c AMP) as [->|H1]; [reflexivity|].
  destruct (N.eqb_spec c LT) as [->|H2]; [reflexivity|].
  destruct (N.eqb_spec c GT) as [->|H3]; [reflexivity|].
  cbn [flat_map app].
  destruct (N.eqb_spec c AMP); [contradiction|]. cbn [flat_map app].
  destruct (N.eqb_spec c LT); [contradiction|]. cbn [flat_map app].
  destruct (N.eqb_spec c GT); [contradiction|]. reflexivity.
Qed.

(** Reading an escaped field gives the field back. *)
Lemma unesc_esc (s : str) : unesc (esc s) = s.
Proof.
  induction s as [|c s IH]; [reflexivity|].
  rewrite esc_cons. unfold esc_char.
  destruct (N.eqb_spec c AMP) as [->|H1].
  { change (unesc (lit "&amp;" ++ esc s)) with (AMP :: unesc (esc s)).
    now rewrite IH. }
  destruct (N.eqb_spec c LT) as [->|H2].
  { change (unesc (lit "&lt;" ++ esc s)) with (LT :: unesc (esc s)).
    now rewrite IH. }
  destruct (N.eqb_spec c GT) as [->|H3].
  { change (unesc (lit "&gt;" ++ esc s)) with (GT :: unesc (esc s)).
    now rewrite IH. }
  cbn [app]. 
  assert (E : forall r, unesc (c :: r) = c :: unesc r).
  { intros r. unfold AMP in H1.
    destruct c as [|p]; [reflexivity|].
    cbn [unesc].
    repeat (match goal with
            | |- context [match ?x with _ => _ end] =>
                is_var x; destruct x
            end; try reflexivity; try congruence). }
  now rewrite E, IH.
Qed.

(** An escaped field holds no markup character but the "&" of an entity. *)
Lemma esc_no_markup (s : str) :
  forallb (fun c => negb ((c =? LT) || (c =? GT))) (esc s) = true.
Proof.
  induction s as [|c s IH]; [reflexivity|].
  rewrite esc_cons, forallb_app, IH, andb_true_r. unfold esc_char.
  destruct (N.eqb_spec c AMP) as [->|H1]; [reflexivity|].
  destruct (N.eqb_spec c LT) as [->|H2]; [reflexivity|].
  destruct (N.eqb_spec c GT) as [->|H3]; [reflexivity|].
  cbn [forallb]. destruct (N.eqb_spec c LT); [contradiction|].
  destruct (N.eqb_spec c GT); [contradiction|]. reflexivity.
Qed.

(** *** Reading the document *)

Lemma xml_run_app (st : xml_state) (a b : str) :
  xml_run st (a ++ b)
  = match xml_run st a with
    | Some st' => xml_run st' b
    | None => None
    end.
Proof.
  revert st. induction a as [|c a IH]; intros st; [reflexivity|].
  cbn [app xml_run]. destruct (xml_step st c); [apply IH | reflexivity].
Qed.

Lemma xml_content_nil : xml_content [].
Proof. intros top below b. now exists b. Qed.

Lemma xml_content_app (a b : str) :
  xml_content a -> xml_content b -> xml_content (a ++ b).
Proof.
  intros Ha Hb top below k. rewrite xml_run_app.
  destruct (Ha top below k) as [k1 ->]. apply Hb.
Qed.

Lemma xml_plain_step (c : N) (top : str) (below : list str) (k : nat) :
  xml_plain c = true ->
  exists k', xml_step (xml_inside top below k) c
             = Some (xml_inside top below k').
Proof.
  unfold xml_plain. intros H. apply andb_prop in H as [Hc H].
  apply negb_true_iff in H. apply orb_false_elim in H as [H Hgt].
  apply orb_false_elim in H as [Hlt Hamp].
  unfold xml_step. rewrite Hc. cbn [negb xml_at xml_inside xml_stack is_nil].
  rewrite Hlt, Hamp, Hgt.
  destruct (c =? RBRACKET); eexists; reflexivity.
Qed.

Lemma xml_content_plain (s : str) :
  forallb xml_plain s = true -> xml_content s.
Proof.
  induction s as [|c s IH]; intros H; [apply xml_content_nil|].
  cbn [forallb] in H. apply andb_prop in H as [Hc Hs].
  intros top below k. cbn [xml_run].
  destruct (xml_plain_step c top below k Hc) as [k1 ->].
  now apply IH.
Qed.

Lemma xml_content_newline : xml_content [NL].
Proof. now apply xml_content_plain. Qed.

Lemma xml_content_esc_char (c : N) :
  xml_char c = true -> xml_content (esc_char c).
Proof.
  intros Hc. unfold esc_char.
  destruct (N.eqb_spec c AMP) as [->|H1];
    [intros top below k; exists 0%nat; reflexivity|].
  destruct (N.eqb_spec c LT) as [->|H2];
    [intros top below k; exists 0%nat; reflexivity|].
  destruct (N.eqb_spec c GT) as [->|H3];
    [intros top below k; exists 0%nat; reflexivity|].
  apply xml_content_plain. cbn [forallb]. unfold xml_plain.
  rewrite Hc, andb_true_r.
  apply N.eqb_neq in H1, H2, H3. now rewrite H1, H2, H3.
Qed.

Lemma xml_content_esc (s : str) :
  forallb xml_char s = true -> xml_content (esc s).
Proof.
  induction s as [|c s IH]; intros H; [apply xml_content_nil|].
  cbn [forallb] in H. apply andb_prop in H as [Hc Hs].
  rewrite esc_cons. apply xml_content_app; [|now apply IH].
  now apply xml_content_esc_char.
Qed.

(** An element with fixed tags around a piece of content. *)
Lemma xml_content_element (opening closing name body : str) :
  (forall top below k,
     xml_run (xml_inside top below k) opening
     = Some (xml_inside name (top :: below) 0)) ->
  (forall top below k,
     xml_run (xml_inside name (top :: below) k) closing
     = Some (xml_inside top below 0)) ->
  xml_content body -> xml_content (opening ++ body ++ closing).
Proof.
  intros Hopen Hclose Hbody top below k.
  rewrite xml_run_app, Hopen, xml_run_app.
  destruct (Hbody name (top :: below) 0%nat) as [k1 ->].
  rewrite Hclose. now exists 0%nat.
Qed.

Lemma strip_prefix_app (p s : str) : strip_prefix p (p ++ s) = Some s.
Proof.
  induction p as [|c p IH]; [now destruct s|].
  cbn [app strip_prefix]. now rewrite N.eqb_refl.
Qed.

Lemma contains_tail (pat : str) (c : N) (s : str) :
  contains pat (c :: s) = false -> contains pat s = false.
Proof.
  cbn [contains]. destruct (strip_prefix pat (c :: s)); [discriminate|].
  easy.
Qed.

Lemma contains_suffix (pat a s : str) :
  contains pat (a ++ s) = false -> contains pat s = false.
Proof.
  induction a as [|c a IH]; [easy|].
  cbn [app]. intros H. apply IH. now apply contains_tail in H.
Qed.

Lemma xml_cdata_run (d : str) :
  forallb xml_char d = true ->
  forall k top below,
    (k <= 2)%nat ->
    contains CDATA_END (repeat RBRACKET k ++ d) = false ->
    exists k', xml_run (xml_in_cdata top below k) d
               = Some (xml_in_cdata top below k').
Proof.
  induction d as [|c d IH]; intros Hd k top below Hk Hno;
    [now exists k|].
  cbn [forallb] in Hd. apply andb_prop in Hd as [Hc Hd].
  cbn [xml_run]. unfold xml_step at 1. rewrite Hc.
  cbn [negb xml_at xml_in_cdata].
  destruct (N.eqb_spec c RBRACKET) as [->|Hb].
  - apply (IH Hd (more_brackets k) top below).
    + destruct k; cbn; lia.
    + destruct k as [|[|[|k]]]; try lia; cbn [more_brackets].
      * exact Hno.
      * exact Hno.
      * now apply contains_tail in Hno.
  - destruct (N.eqb_spec c GT) as [->|Hg].
    + destruct k as [|[|[|k]]]; try lia.
      * apply (IH Hd 0%nat top below); [lia|].
        now apply (contains_suffix _ [GT] d) in Hno.
      * apply (IH Hd 0%nat top below); [lia|].
        now apply (contains_suffix _ [RBRACKET; GT] d) in Hno.
      * discriminate Hno.
    + apply (IH Hd 0%nat top below); [lia|].
      change (c :: d) with ([c] ++ d) in Hno. rewrite app_assoc in Hno.
      now apply contains_suffix in Hno.
Qed.

Ltac xml_tag name :=
  apply (xml_content_element _ _ name);
  [intros; reflexivity | intros; reflexivity | ].

Lemma xml_content_description (d : str) :
  forallb xml_char d = true -> contains CDATA_END d = false ->
  xml_content (lit "<description><![CDATA[" ++ d ++ lit "]]></description>").
Proof.
  intros Hd Hno top below k. rewrite xml_run_app.
  assert (Hopen : xml_run (xml_inside top below k)
                    (lit "<description><![CDATA[")
                  = Some (xml_in_cdata (lit "description") (top :: below) 0))
    by reflexivity.
  rewrite Hopen, xml_run_app.
  destruct (xml_cdata_run d Hd 0%nat (lit "description") (top :: below))
    as [k1 ->]; [lia | exact Hno |].
  exists 0%nat. destruct k1 as [|[|k1]]; reflexivity.
Qed.

Lemma xml_content_item (it : gmap str str) :
  item_writable it = true -> xml_content (spec_item_block it).
Proof.
  unfold item_writable. intros H.
  apply andb_prop in H as [H Hno]. apply negb_true_iff in Hno.
  apply andb_prop in H as [H Hdesc]. apply andb_prop in H as [H Hpub].
  apply andb_prop in H as [H Hguid]. apply andb_prop in H as [Htitle Hlink].
  unfold spec_item_block.
  apply xml_content_app; [apply xml_content_newline|].
  xml_tag (lit "item").
  apply xml_content_app; [apply xml_content_newline|].
  apply xml_content_app; [xml_tag (lit "title"); now apply xml_content_esc|].
  apply xml_content_app; [apply xml_content_newline|].
  apply xml_content_app; [xml_tag (lit "link"); now apply xml_content_esc|].
  apply xml_content_app; [apply xml_content_newline|].
  apply xml_content_app; [xml_tag (lit "guid"); now apply xml_content_esc|].
  apply xml_content_app.
  { destruct (truthy (item_get it "pubDate")); [|apply xml_content_nil].
    apply xml_content_app; [apply xml_content_newline|].
    xml_tag (lit "pubDate"). now apply xml_content_esc. }
  apply xml_content_app; [apply xml_content_newline|].
  apply xml_content_app; [|apply xml_content_newline].
  now apply xml_content_description.
Qed.

Lemma xml_content_items (items : list (gmap str str)) :
  forallb item_writable items = true ->
  xml_content (concat (List.map spec_item_block items)).
Proof.
  induction items as [|it items IH]; intros H; [apply xml_content_nil|].
  cbn [forallb] in H. apply andb_prop in H as [Hit Hitems].
  cbn [List.map concat].
  apply xml_content_app; [now apply xml_content_item | now apply IH].
Qed.

Lemma xml_content_channel (now feed_title : str)
    (items : list (gmap str str)) :
  forallb xml_plain now = true ->
  forallb xml_char feed_title = true ->
  forallb item_writable items = true ->
  xml_content (spec_channel_content now feed_title items).
Proof.
  intros Hnow Htitle Hitems. unfold spec_channel_content.
  apply xml_content_app; [apply xml_content_newline|].
  apply xml_content_app; [xml_tag (lit "title"); now apply xml_content_esc|].
  apply xml_content_app; [apply xml_content_newline|].
  apply xml_content_app; [xml_tag (lit "link"); apply xml_content_nil|].
  apply xml_content_app; [apply xml_content_newline|].
  apply xml_content_app; [xml_tag (lit "description"); now apply xml_content_esc|].
  apply xml_content_app; [apply xml_content_newline|].
  apply xml_content_app;
    [xml_tag (lit "lastBuildDate"); now apply xml_content_plain|].
  apply xml_content_app; [|apply xml_content_newline].
  now apply xml_content_items.
Qed.

Lemma spec_document_well_formed (now feed_title : str)
    (items : list (gmap str str)) :
  forallb xml_plain now = true ->
  forallb xml_char feed_title = true ->
  forallb item_writable items = true ->
  xml_well_formed (spec_document now feed_title items) = true.
Proof.
  intros Hnow Htitle Hitems.
  unfold xml_well_formed, spec_document. rewrite strip_prefix_app.
  rewrite xml_run_app.
  assert (Hopen : xml_run {| xml_stack := []; xml_root_done := false;
                             xml_at := XText 0 |}
                    ([NL] ++ RSS_OPEN ++ [NL] ++ lit "<channel>")
                  = Some (xml_inside (lit "channel") [lit "rss"] 0))
    by reflexivity.
  rewrite Hopen, xml_run_app.
  destruct (xml_content_channel now feed_title items Hnow Htitle Hitems
              (lit "channel") [lit "rss"] 0%nat) as [k ->].
  reflexivity.
Qed.

Lemma forallb_xml_char_app (a b : str) :
  forallb xml_char (a ++ b) = forallb xml_char a && forallb xml_char b.
Proof. apply forallb_app. Qed.




(** * Further properties of the script *)

(** ** The two tables *)

(** X1: cache_put followed by cache_get under the same key returns the
    translation just stored; every other key reads as before and the
    seen-items table is untouched. *)
Theorem cache_put_then_get (now : str) (conn : DB)
    (key b l s t : str) :
  let conn' := cache_put now conn key b l s t in
  cache_get conn' key = Some t
  /\ (forall key', key' <> key -> cache_get conn' key' = cache_get conn key')
  /\ (forall item_id, is_seen conn' item_id = is_seen conn item_id).
Proof.
  intros conn'. split; [apply cache_get_put|]. split.
  - intros key' Hne. apply cache_get_put_ne. congruence.
  - reflexivity.
Qed.

(** X2: cache_put is an upsert: a second put under the same key replaces
    the record of the first, whatever the first stored (last write wins). *)
Theorem cache_put_last_write_wins (now1 now2 : str) (conn : DB)
    (key b1 l1 s1 t1 b2 l2 s2 t2 : str) :
  cache_put now2 (cache_put now1 conn key b1 l1 s1 t1) key b2 l2 s2 t2
  = cache_put now2 conn key b2 l2 s2 t2.
Proof.
  unfold cache_put. cbn. f_equal. apply insert_insert_eq.
Qed.

(** X3: mark_seen is insert-if-absent: marking an identity that is already
    recorded changes nothing, so its first_seen is never overwritten; in
    any case the identity is seen afterwards, other identities are seen
    exactly as before, and the translation cache is untouched. *)
Theorem mark_seen_keeps_first_seen (now now' : str) (conn : DB)
    (item_id : str) :
  mark_seen now' (mark_seen now conn item_id) item_id
  = mark_seen now conn item_id
  /\ (is_seen conn item_id = true -> mark_seen now conn item_id = conn)
  /\ is_seen (mark_seen now conn item_id) item_id = true
  /\ (forall x, x <> item_id ->
      is_seen (mark_seen now conn item_id) x = is_seen conn x)
  /\ translated_cache (mark_seen now conn item_id) = translated_cache conn.
Proof.
  assert (Hkeep : forall n c, is_seen c item_id = true ->
                    mark_seen n c item_id = c).
  { intros n c H. apply is_seen_true in H as [v Hv].
    unfold mark_seen. rewrite Hv. now destruct c. }
  split; [apply Hkeep, is_seen_mark_seen|].
  split; [apply Hkeep|]. split; [apply is_seen_mark_seen|]. split.
  - intros x Hx. unfold is_seen, mark_seen. cbn.
    destruct (seen_items conn !! item_id); [reflexivity|].
    now rewrite lookup_insert_ne.
  - reflexivity.
Qed.

Lemma mark_seen_keeps_first_seen_witness :
  let conn := mark_seen (lit "2024-01-01T00:00:00") load_db_fresh (lit "a") in
  mark_seen (lit "2024-02-02T00:00:00") conn (lit "a") = conn.
Proof.
  intros conn.
  apply (mark_seen_keeps_first_seen (lit "2024-02-02T00:00:00")
           (lit "2024-02-02T00:00:00") conn (lit "a")).
  vm_compute. reflexivity.
Defined.

(** ** The format of identities and cache keys *)

Lemma hex_digit_range (n : N) :
  n < 16 -> is_hex_lower (SHA1.hex_digit n) = true.
Proof.
  intros H. unfold SHA1.hex_digit, is_hex_lower.
  destruct (N.ltb_spec n 10).
  - replace (48 <=? 48 + n) with true by (symmetry; apply N.leb_le; lia).
    replace (48 + n <=? 57) with true by (symmetry; apply N.leb_le; lia).
    reflexivity.
  - replace (97 <=? 87 + n) with true by (symmetry; apply N.leb_le; lia).
    replace (87 + n <=? 102) with true by (symmetry; apply N.leb_le; lia).
    apply orb_true_r.
Qed.

Lemma hex_word_format (x : N) :
  forallb is_hex_lower (SHA1.hex_word x) = true.
Proof.
  rewrite hex_word_nibbles. cbn [List.map forallb].
  rewrite !hex_digit_range by apply mod16_lt. reflexivity.
Qed.

Lemma hex_lower_plain (c : N) : is_hex_lower c = true -> xml_plain c = true.
Proof.
  unfold is_hex_lower, xml_plain, xml_char, LT, GT, AMP. intros H.
  apply orb_prop in H as [H|H]; apply andb_prop in H as [H1 H2];
    apply N.leb_le in H1, H2.
  all: replace (32 <=? c) with true by (symmetry; apply N.leb_le; lia).
  all: replace (c <=? 55295) with true by (symmetry; apply N.leb_le; lia).
  all: replace (c =? 60) with false by (symmetry; apply N.eqb_neq; lia).
  all: replace (c =? 38) with false by (symmetry; apply N.eqb_neq; lia).
  all: replace (c =? 62) with false by (symmetry; apply N.eqb_neq; lia).
  all: cbn; now rewrite ?orb_true_r.
Qed.

Lemma esc_plain (s : str) : forallb xml_plain s = true -> esc s = s.
Proof.
  induction s as [|c s IH]; [reflexivity|]. cbn [forallb]. intros H.
  apply andb_prop in H as [Hc Hs]. rewrite esc_cons, IH by assumption.
  unfold xml_plain in Hc. apply andb_prop in Hc as [_ Hc].
  apply negb_true_iff in Hc. apply orb_false_elim in Hc as [Hc Hgt].
  apply orb_false_elim in Hc as [Hlt Hamp].
  unfold esc_char. now rewrite Hamp, Hlt, Hgt.
Qed.

(** X4: every SHA-1 hex digest the script computes, so every entry identity
    (the guid of an item) and every cache key, is 40 characters long and
    made of the digits 0-9 and the letters a-f only; escaping it for the
    feed leaves it unchanged. *)
Theorem sha1_hex_format (s : str) :
  length (sha1 s) = 40%nat
  /\ forallb is_hex_lower (sha1 s) = true
  /\ esc (sha1 s) = sha1 s.
Proof.
  assert (F : forallb is_hex_lower (sha1 s) = true).
  { unfold sha1, SHA1.hexdigest.
    destruct (SHA1.digest _) as [[[[a b] c] d] e].
    rewrite !forallb_app, !hex_word_format. reflexivity. }
  split; [|split; [exact F|]].
  - unfold sha1, SHA1.hexdigest.
    destruct (SHA1.digest _) as [[[[a b] c] d] e].
    rewrite !length_app, !hex_word_length. reflexivity.
  - apply esc_plain. clear -F. induction (sha1 s) as [|c r IH]; [reflexivity|].
    cbn [forallb] in *. apply andb_prop in F as [Fc Fr].
    now rewrite hex_lower_plain, IH.
Qed.

(** ** extract_main_text: collapsing runs of newlines *)

Lemma flush_newlines_repeat (run : nat) :
  exists k, (k <= 2)%nat /\ flush_newlines run = repeat NL k
            /\ ((run <= 2)%nat -> k = run).
Proof.
  unfold flush_newlines. destruct (Nat.leb_spec 3 run).
  - exists 2%nat. repeat split; lia.
  - exists run. repeat split; lia.
Qed.

Lemma contains_triple_other (c : N) (s : str) :
  c <> NL -> contains TRIPLE_NEWLINE (c :: s) = contains TRIPLE_NEWLINE s.
Proof.
  intros H. apply N.eqb_neq in H. cbn [contains TRIPLE_NEWLINE strip_prefix].
  now rewrite H.
Qed.

Lemma contains_triple_short_run (k : nat) (c : N) (s : str) :
  (k <= 2)%nat -> c <> NL ->
  contains TRIPLE_NEWLINE (repeat NL k ++ c :: s)
  = contains TRIPLE_NEWLINE s.
Proof.
  intros Hk Hc. apply N.eqb_neq in Hc.
  destruct k as [|[|[|k]]]; try lia;
    cbn [repeat app contains TRIPLE_NEWLINE strip_prefix];
    rewrite ?N.eqb_refl, Hc; reflexivity.
Qed.

Lemma contains_triple_repeat (k : nat) :
  (k <= 2)%nat -> contains TRIPLE_NEWLINE (repeat NL k) = false.
Proof. intros Hk. destruct k as [|[|[|k]]]; try lia; reflexivity. Qed.

Lemma collapse_no_triple (s : str) (run : nat) :
  contains TRIPLE_NEWLINE (collapse_newlines run s) = false.
Proof.
  revert run. induction s as [|c s IH]; intros run; cbn [collapse_newlines].
  - destruct (flush_newlines_repeat run) as (k & Hk & -> & _).
    now apply contains_triple_repeat.
  - destruct (N.eqb_spec c NL) as [->|Hc]; [apply IH|].
    destruct (flush_newlines_repeat run) as (k & Hk & -> & _).
    rewrite contains_triple_short_run by assumption. apply IH.
Qed.

Lemma filter_not_newline_repeat (k : nat) :
  List.filter not_newline (repeat NL k) = [].
Proof. induction k as [|k IH]; [reflexivity|]. cbn. exact IH. Qed.

Lemma collapse_keeps_text (s : str) (run : nat) :
  List.filter not_newline (collapse_newlines run s)
  = List.filter not_newline s.
Proof.
  revert run. induction s as [|c s IH]; intros run; cbn [collapse_newlines].
  - destruct (flush_newlines_repeat run) as (k & _ & -> & _).
    apply filter_not_newline_repeat.
  - destruct (N.eqb_spec c NL) as [->|Hc].
    + rewrite IH. reflexivity.
    + destruct (flush_newlines_repeat run) as (k & _ & -> & _).
      assert (Hn : not_newline c = true).
      { unfold not_newline. apply negb_true_iff. now apply N.eqb_neq. }
      rewrite List.filter_app, filter_not_newline_repeat.
      cbn [app List.filter]. rewrite Hn. now rewrite IH.
Qed.

Lemma collapse_length (s : str) (run : nat) :
  (length (collapse_newlines run s) <= run + length s)%nat.
Proof.
  revert run. induction s as [|c s IH]; intros run; cbn [collapse_newlines].
  - destruct (flush_newlines_repeat run) as (k & Hk & -> & Hrun).
    rewrite repeat_length. cbn. destruct (Nat.leb_spec run 2); [|lia].
    rewrite Hrun; lia.
  - destruct (N.eqb_spec c NL) as [->|Hc].
    + specialize (IH (S run)). cbn [length]. lia.
    + destruct (flush_newlines_repeat run) as (k & Hk & -> & Hrun).
      rewrite length_app, repeat_length. cbn [length].
      specialize (IH 0%nat).
      destruct (Nat.leb_spec run 2); [rewrite Hrun by lia|]; lia.
Qed.

Lemma repeat_snoc (k : nat) (s : str) :
  repeat NL k ++ NL :: s = repeat NL (S k) ++ s.
Proof.
  induction k as [|k IH]; [reflexivity|]. cbn [repeat app]. now rewrite IH.
Qed.

Lemma collapse_fixed (s : str) (run : nat) :
  contains TRIPLE_NEWLINE (repeat NL run ++ s) = false ->
  (run <= 2)%nat ->
  collapse_newlines run s = repeat NL run ++ s.
Proof.
  revert run. induction s as [|c s IH]; intros run Hno Hrun;
    cbn [collapse_newlines].
  - destruct (flush_newlines_repeat run) as (k & _ & -> & Hk).
    rewrite Hk by assumption. now rewrite app_nil_r.
  - destruct (N.eqb_spec c NL) as [->|Hc].
    + rewrite repeat_snoc in *. apply IH; [assumption|].
      destruct run as [|[|[|run]]]; try lia. discriminate Hno.
    + destruct (flush_newlines_repeat run) as (k & _ & -> & Hk).
      rewrite Hk by assumption. do 2 f_equal.
      apply (IH 0%nat); [|lia]. cbn [repeat app].
      now rewrite contains_triple_short_run in Hno.
Qed.

(** X5: extract_main_text never returns three newlines in a row; it returns
    the empty string when the page has no content region; apart from
    newlines it returns the characters of the region text, in order, and
    never more characters than that text has. *)
Theorem extract_main_text_newlines (w : World) (html : str) :
  contains TRIPLE_NEWLINE (extract_main_text w html) = false
  /\ match soup_region_text w html with
     | None => extract_main_text w html = []
     | Some text =>
         List.filter not_newline (extract_main_text w html)
         = List.filter not_newline text
         /\ (length (extract_main_text w html) <= length text)%nat
     end.
Proof.
  unfold extract_main_text. destruct (soup_region_text w html) as [text|].
  - split; [apply collapse_no_triple|]. split.
    + apply collapse_keeps_text.
    + apply (collapse_length text 0).
  - split; reflexivity.
Qed.

(** X6: a region text without three newlines in a row is returned as it is,
    and collapsing is idempotent: text that went through extract_main_text
    is not changed by collapsing it again. *)
Theorem extract_main_text_fixed (w : World) (html text : str) :
  soup_region_text w html = Some text ->
  (contains TRIPLE_NEWLINE text = false -> extract_main_text w html = text)
  /\ collapse_newlines 0 (extract_main_text w html)
     = extract_main_text w html.
Proof.
  intros Hregion. unfold extract_main_text. rewrite Hregion.
  split.
  - intros Hno. now apply (collapse_fixed text 0); [|lia].
  - apply (collapse_fixed _ 0); [|lia]. apply collapse_no_triple.
Qed.

Lemma extract_main_text_fixed_witness :
  extract_main_text granma_world (lit "<article>x</article>")
  = repeat 120 1000.
Proof.
  destruct (extract_main_text_fixed granma_world
              (lit "<article>x</article>") (repeat 120 1000)) as [H _].
  - reflexivity.
  - apply H. vm_compute. reflexivity.
Defined.

(** ** strip and the truncator *)

Lemma lstrip_fixed (s : str) :
  (forall c r, s = c :: r -> isspace c = false) -> lstrip s = s.
Proof.
  destruct s as [|c r]; [reflexivity|]. intros H. cbn [lstrip].
  now rewrite (H c r eq_refl).
Qed.

Lemma strip_fixed (s : str) :
  (forall c r, s = c :: r -> isspace c = false) ->
  (forall r c, s = r ++ [c] -> isspace c = false) ->
  strip s = s.
Proof.
  intros Hhead Hlast. unfold strip. rewrite (lstrip_fixed s Hhead).
  unfold rstrip. rewrite lstrip_fixed; [apply rev_involutive|].
  intros c r E. apply (Hlast (rev r) c).
  rewrite <- (rev_involutive s), E. reflexivity.
Qed.

Lemma truncate_trimmed_and_bounded (text : str) (max_chars : Z) :
  (4 <= max_chars < 2 ^ 50)%Z ->
  let out := truncate_for_translation text max_chars in
  (len out <= max_chars + 21)%Z /\ strip out = out.
Proof.
  intros Hm out.
  destruct (int_mul_0_7_bounds max_chars Hm) as [Hh Hh1].
  destruct (int_mul_0_3_bounds max_chars Hm) as [Ht Ht1].
  destruct (strip_spec text) as (a & b & _ & _ & _ & Hhead & Hlast).
  change (2 ^ 50)%Z with 1125899906842624%Z in Hm.
  subst out. unfold truncate_for_translation.
  set (s := strip text) in *.
  set (h := int_mul_0_7 max_chars) in *.
  set (t := int_mul_0_3 max_chars) in *.
  assert (Hsum : (h + t <= max_chars)%Z).
  { clearbody h t. Z.div_mod_to_equations. lia. }
  destruct (Z.leb_spec (len s) max_chars) as [Hle|Hgt].
  { split; [lia | now apply strip_fixed]. }
  unfold slice_to, slice_from.
  destruct (Z.ltb_spec h 0); [lia|].
  destruct (Z.ltb_spec (- t) 0); [|lia].
  unfold len in *.
  set (n := Z.to_nat (Z.of_nat (length s) + - t)).
  assert (Hn : (n + Z.to_nat t = length s)%nat) by lia.
  assert (L1 : length (firstn (Z.to_nat h) s) = Z.to_nat h)
    by (apply firstn_length_le; lia).
  assert (L2 : length (skipn n s) = Z.to_nat t)
    by (rewrite length_skipn; lia).
  split.
  { rewrite !length_app, L1, L2, truncated_divider_length. lia. }
  apply strip_fixed.
  - intros c r E. destruct s as [|c0 s0]; [cbn in Hgt; lia|].
    destruct (Z.to_nat h) as [|h'] eqn:Eh; [lia|].
    cbn [firstn app] in E. injection E as <- _.
    now apply (Hhead c0 s0).
  - intros r c E.
    destruct (exists_last (l := skipn n s)) as (tail' & z & Etail).
    { intros E0. rewrite E0 in L2. cbn in L2. lia. }
    rewrite Etail in E. rewrite !app_assoc in E.
    apply app_inj_tail in E as [_ <-].
    apply (Hlast (firstn n s ++ tail') z).
    rewrite <- app_assoc, <- Etail. symmetry. apply firstn_skipn.
Qed.

(** X7: for max_chars from 4 up to 2^50, whatever the text, the output of
    the truncator neither begins nor ends with whitespace (trimming it
    again changes nothing), also when the cut falls inside a run of
    whitespace, and it is at most max_chars + 21 characters long. *)
Theorem truncate_output_trimmed (text : str) (max_chars : Z) :
  (4 <= max_chars < 2 ^ 50)%Z ->
  (len (truncate_for_translation text max_chars) <= max_chars + 21)%Z
  /\ strip (truncate_for_translation text max_chars)
     = truncate_for_translation text max_chars.
Proof. apply truncate_trimmed_and_bounded. Qed.

Lemma truncate_output_trimmed_witness :
  strip (truncate_for_translation (lit "  abcdefghijk  ") 10)
  = truncate_for_translation (lit "  abcdefghijk  ") 10.
Proof.
  apply (truncate_output_trimmed (lit "  abcdefghijk  ") 10).
  split; [lia | reflexivity].
Defined.

(** ** Invariants of a run of main *)

(** An invariant of the database, the events and the items output so far
    that every iteration of the entry loop keeps is kept by a whole run. *)
Lemma process_entries_invariant (w : World) (cfg : Config)
    (R : DB -> list Event -> list (gmap str str) -> Prop) :
  (forall conn past acc e, R conn past acc ->
     let r := process_entry w cfg conn past e in
     R r.1.1 r.1.2 (acc ++ item_list r.2)) ->
  forall entries conn past acc, R conn past acc ->
    let r := process_entries w cfg conn past entries in
    R r.1.1 r.1.2 (acc ++ r.2).
Proof.
  intros Hstep entries.
  induction entries as [|e rest IH]; intros conn past acc H.
  - cbn. now rewrite app_nil_r.
  - cbn [process_entries]. specialize (Hstep conn past acc e H).
    destruct (process_entry w cfg conn past e) as [[conn1 past1] it].
    cbn [fst snd] in Hstep. specialize (IH conn1 past1 _ Hstep).
    destruct (process_entries w cfg conn1 past1 rest)
      as [[conn2 past2] items].
    cbn [fst snd] in *. destruct it as [i|]; cbn [item_list] in IH.
    + now rewrite <- app_assoc in IH.
    + now rewrite app_nil_r in IH.
Qed.

Lemma process_feeds_invariant (w : World) (cfg : Config)
    (R : DB -> list Event -> list (gmap str str) -> Prop) :
  (forall conn past acc e, R conn past acc ->
     let r := process_entry w cfg conn past e in
     R r.1.1 r.1.2 (acc ++ item_list r.2)) ->
  forall feeds conn past acc, R conn past acc ->
    let r := process_feeds w cfg conn past feeds in
    R r.1.1 r.1.2 (acc ++ all_items r.2).
Proof.
  intros Hstep feeds.
  induction feeds as [|f rest IH]; intros conn past acc H.
  - cbn. now rewrite app_nil_r.
  - cbn [process_feeds]. unfold process_feed.
    pose proof (process_entries_invariant w cfg R Hstep
      (cap_entries (feedparser_entries w f.2) (cfg_max_items cfg))
      conn past acc H) as H1.
    destruct (process_entries _ _ _ _ _) as [[conn1 past1] items].
    cbn [fst snd] in H1. specialize (IH conn1 past1 _ H1).
    destruct (process_feeds w cfg conn1 past1 rest) as [[conn2 past2] os].
    cbn [fst snd] in *. unfold all_items. cbn [List.map concat out_items].
    now rewrite app_assoc.
Qed.

Lemma main_invariant (w : World) (cfg : Config)
    (R : DB -> list Event -> list (gmap str str) -> Prop) :
  (forall conn past acc e, R conn past acc ->
     let r := process_entry w cfg conn past e in
     R r.1.1 r.1.2 (acc ++ item_list r.2)) ->
  forall feeds conn, R conn [] [] ->
    let r := main w cfg conn feeds in
    R r.1.1 r.1.2 (all_items r.2).
Proof.
  intros Hstep feeds conn H.
  apply (process_feeds_invariant w cfg R Hstep feeds conn [] [] H).
Qed.

(** What one iteration does for an entry that is not skipped. *)
Lemma process_entry_new (w : World) (cfg : Config) (conn : DB)
    (past : list Event) (e : Entry) :
  is_seen conn (entry_id e) = false ->
  exists fetched translated conn1 called,
    process_entry w cfg conn past e
    = (mark_seen (utcnow_isoformat w) conn1 (entry_id e),
       past ++ fetched ++ called,
       Some (make_item w cfg e (entry_id e)
               (build_description translated
                  (entry_source_text w cfg past e))))
    /\ (fetched = []
        \/ (exists t, fetched = [EvFetch (or_empty (e_link e)) t])
        \/ (exists t html,
              fetched = [EvFetch (or_empty (e_link e)) t; EvExtract html]))
    /\ (called = [] /\ conn1 = conn
           /\ cached_nonempty conn
                (key_of cfg (entry_source_text w cfg past e))
        \/ called = [EvTranslate (entry_source_text w cfg past e)
                       (cfg_target_lang cfg)]
           /\ ~ cached_nonempty conn
                  (key_of cfg (entry_source_text w cfg past e))
           /\ exists t,
                conn1 = cache_put (utcnow_isoformat w) conn
                          (key_of cfg (entry_source_text w cfg past e))
                          (translator_name cfg) (cfg_target_lang cfg)
                          (entry_source_text w cfg past e) t
                /\ translated = t
                /\ (entry_source_text w cfg past e <> [] -> t <> [])).
Proof.
  intros Hseen. rewrite (process_entry_unseen _ _ _ _ _ Hseen).
  set (src := entry_source_text w cfg past e).
  assert (Hf : exists fetched, entry_past w cfg past e = past ++ fetched
    /\ (fetched = []
        \/ (exists t, fetched = [EvFetch (or_empty (e_link e)) t])
        \/ (exists t html,
              fetched = [EvFetch (or_empty (e_link e)) t; EvExtract html]))).
  { unfold entry_past, fetch_article.
    destruct (truthy (or_empty (e_link e))).
    - destruct (fetch_url w past _ _) as [html|]; [destruct (truthy html)|];
        cbn [snd].
      + exists [EvFetch (or_empty (e_link e)) (cfg_timeout cfg);
                EvExtract html].
        split; [now rewrite <- app_assoc | right; right; eauto].
      + eexists. split; [reflexivity | right; left; eauto].
      + eexists. split; [reflexivity | right; left; eauto].
    - exists []. split; [now rewrite app_nil_r | now left]. }
  destruct Hf as (fetched & Epast & Hfetched). rewrite Epast.
  destruct (truthy (or_empty (cache_get conn (key_of cfg src)))) eqn:Hhit.
  - pose proof Hhit as Hc. apply cached_nonempty_truthy in Hc.
    destruct Hc as (t & Ht & Hne).
    rewrite (lookup_or_translate_hit _ _ _ _ _ _ Ht Hne). cbn [fst snd].
    exists fetched, t, conn, []. rewrite app_nil_r.
    split; [reflexivity|]. split; [exact Hfetched|].
    left. repeat split. apply cached_nonempty_truthy. exact Hhit.
  - rewrite (lookup_or_translate_miss _ _ _ _ _ Hhit). cbn [fst snd].
    eexists fetched, _, _, _. rewrite <- app_assoc.
    split; [reflexivity|]. split; [exact Hfetched|].
    right. split; [reflexivity|]. split.
    + intros Hc. apply cached_nonempty_truthy in Hc. congruence.
    + eexists. split; [reflexivity|]. split; [reflexivity|].
      intros Hsrc. destruct (translate w _ src _); cbn; [exact Hsrc|].
      discriminate.
Qed.

Lemma make_item_guid (w : World) (cfg : Config) (e : Entry)
    (eid desc : str) :
  item_guid (make_item w cfg e eid desc) = eid.
Proof.
  unfold item_guid, item_get, make_item.
  rewrite lookup_insert_ne by discriminate.
  rewrite lookup_insert_ne by discriminate.
  now rewrite lookup_insert_eq.
Qed.

Lemma is_seen_false (conn : DB) (item_id : str) :
  is_seen conn item_id = false <-> seen_items conn !! item_id = None.
Proof.
  unfold is_seen. rewrite bool_decide_eq_false.
  rewrite eq_None_not_Some. reflexivity.
Qed.

Lemma process_entry_new_seen_items (w : World) (cfg : Config) (conn : DB)
    (past : list Event) (e : Entry) :
  is_seen conn (entry_id e) = false ->
  seen_items (process_entry w cfg conn past e).1.1
  = <[entry_id e := utcnow_isoformat w]> (seen_items conn).
Proof.
  intros Hseen. rewrite (process_entry_unseen _ _ _ _ _ Hseen).
  cbn [fst]. unfold mark_seen. cbn [seen_items].
  rewrite lookup_or_translate_seen_items.
  apply is_seen_false in Hseen. now rewrite Hseen.
Qed.

(** X8: in every run of main, from any database and whatever the outside
    world answers, each text sent to the translation backend is at most
    12021 characters long (12000 plus the divider), neither begins nor ends
    with whitespace, and is sent with the configured target language. *)
Theorem main_translate_inputs (w : World) (cfg : Config) (conn : DB)
    (feeds : list (str * str)) :
  Forall (translate_input_ok cfg) (main w cfg conn feeds).1.2.
Proof.
  apply (main_invariant w cfg
           (fun _ past _ => Forall (translate_input_ok cfg) past));
    [|constructor].
  intros c past acc e H.
  destruct (is_seen c (entry_id e)) eqn:Hseen.
  - now rewrite process_entry_seen.
  - destruct (process_entry_new w cfg c past e Hseen)
      as (fetched & translated & conn1 & called & -> & Hf & Hc).
    cbn [fst snd]. apply Forall_app. split; [exact H|].
    apply Forall_app. split.
    + destruct Hf as [->|[(t & ->)|(t & html & ->)]];
        repeat constructor.
    + destruct Hc as [(-> & _)|(-> & _)]; [constructor|].
      constructor; [|constructor]. cbn. split; [reflexivity|].
      unfold entry_source_text, choose_source_text.
      apply (truncate_trimmed_and_bounded _ 12000). split; [lia|reflexivity].
Qed.

(** X9: no duplicate output items: the guids of all the items a run
    outputs, over all its feeds, are pairwise distinct; none of them was
    recorded as seen before the run and each is recorded after it. *)
Theorem main_items_distinct (w : World) (cfg : Config) (conn : DB)
    (feeds : list (str * str)) :
  let r := main w cfg conn feeds in
  NoDup (List.map item_guid (all_items r.2))
  /\ Forall (fun it => is_seen conn (item_guid it) = false
                       /\ is_seen r.1.1 (item_guid it) = true)
       (all_items r.2).
Proof.
  intros r.
  assert (H : (forall x, is_seen conn x = true -> is_seen r.1.1 x = true)
    /\ NoDup (List.map item_guid (all_items r.2))
    /\ Forall (fun it => is_seen conn (item_guid it) = false
                         /\ is_seen r.1.1 (item_guid it) = true)
         (all_items r.2)).
  { apply (main_invariant w cfg
      (fun c _ acc =>
         (forall x, is_seen conn x = true -> is_seen c x = true)
         /\ NoDup (List.map item_guid acc)
         /\ Forall (fun it => is_seen conn (item_guid it) = false
                              /\ is_seen c (item_guid it) = true) acc)).
    - intros c past acc e (Hmono & Hnd & Hall).
      destruct (is_seen c (entry_id e)) eqn:Hseen.
      + rewrite process_entry_seen by assumption. cbn.
        rewrite app_nil_r. now repeat split.
      + pose proof (process_entry_seen_mono w cfg c past e) as Hm.
        pose proof (process_entry_marks w cfg c past e) as Hmark.
        rewrite (process_entry_unseen _ _ _ _ _ Hseen) in *.
        cbn [fst snd item_list] in *.
        split; [intros x Hx; now apply Hm, Hmono|]. split.
        * rewrite map_app. cbn [List.map]. rewrite make_item_guid.
          apply NoDup_app. split; [exact Hnd|]. split; [|repeat constructor;
            apply not_elem_of_nil].
          intros g Hg Hg'. apply list_elem_of_singleton in Hg'. subst g.
          apply list_elem_of_fmap in Hg as (it & Eg & Hit).
          rewrite Forall_forall in Hall. destruct (Hall it Hit) as [_ Hs].
          rewrite <- Eg in Hs. congruence.
        * apply Forall_app. split.
          -- eapply Forall_impl; [exact Hall|]. cbn.
             intros it [H1 H2]. split; [exact H1 | now apply Hm].
          -- constructor; [|constructor]. rewrite make_item_guid.
             split; [|exact Hmark].
             destruct (is_seen conn (entry_id e)) eqn:H0; [|reflexivity].
             apply Hmono in H0. congruence.
    - split; [easy|]. split; constructor. }
  destruct H as (_ & H1 & H2). now split.
Qed.

(** X10: the seen-items table only grows, by exactly one record per item
    output: after a run it holds every record it held before, with the
    same first_seen, and its size has grown by the number of items the run
    output. *)
Theorem main_seen_items_growth (w : World) (cfg : Config) (conn : DB)
    (feeds : list (str * str)) :
  let r := main w cfg conn feeds in
  seen_items conn ⊆ seen_items r.1.1
  /\ size (seen_items r.1.1)
     = (size (seen_items conn) + length (all_items r.2))%nat.
Proof.
  apply (main_invariant w cfg
    (fun c _ acc =>
       seen_items conn ⊆ seen_items c
       /\ size (seen_items c)
          = (size (seen_items conn) + length acc)%nat)).
  - intros c past acc e [Hsub Hsize].
    destruct (is_seen c (entry_id e)) eqn:Hseen.
    + rewrite process_entry_seen by assumption. cbn.
      now rewrite app_nil_r.
    + pose proof (process_entry_new_seen_items w cfg c past e Hseen) as E.
      pose proof Hseen as Hnone. apply is_seen_false in Hnone.
      rewrite (process_entry_unseen _ _ _ _ _ Hseen) in *.
      cbn [fst snd item_list] in *. rewrite E. split.
      * etransitivity; [exact Hsub|]. now apply insert_subseteq.
      * rewrite map_size_insert_None by assumption.
        rewrite length_app. cbn [length]. lia.
  - split; [reflexivity | cbn; lia].
Qed.

Lemma cached_nonempty_record (conn : DB) (key : str) :
  cached_nonempty conn key
  <-> exists rec, translated_cache conn !! key = Some rec
                  /\ translated rec <> [].
Proof.
  unfold cached_nonempty, cache_get. split.
  - intros (t & Ht & Hne).
    destruct (translated_cache conn !! key) as [rec|]; [|discriminate].
    cbn in Ht. injection Ht as <-. eauto.
  - intros (rec & -> & Hne). cbn. eauto.
Qed.

(** What one iteration does to the translation cache: records with a
    non-empty translation stay as they are, no key is removed, and the
    backend calls made so far stay answered by the cache. *)
Lemma process_entry_cache (w : World) (cfg : Config) (conn : DB)
    (past : list Event) (e : Entry) :
  let r := process_entry w cfg conn past e in
  (forall k rec, translated_cache conn !! k = Some rec ->
     translated rec <> [] -> translated_cache r.1.1 !! k = Some rec)
  /\ (forall k, is_Some (translated_cache conn !! k) ->
        is_Some (translated_cache r.1.1 !! k))
  /\ (Forall (translate_cached cfg conn) past ->
      Forall (translate_cached cfg r.1.1) r.1.2).
Proof.
  destruct (is_seen conn (entry_id e)) eqn:Hseen.
  - rewrite process_entry_seen by assumption. cbn. now repeat split.
  - destruct (process_entry_new w cfg conn past e Hseen)
      as (fetched & tr & conn1 & called & -> & Hf & Hc).
    cbn [fst snd].
    assert (Hfetched : Forall (translate_cached cfg
              (mark_seen (utcnow_isoformat w) conn1 (entry_id e))) fetched).
    { destruct Hf as [->|[(t & ->)|(t & html & ->)]]; repeat constructor. }
    destruct Hc as [(-> & -> & _)|(-> & Hmiss & t & -> & _ & Hne)].
    + cbn. split; [easy|]. split; [easy|]. intros H.
      rewrite app_nil_r. apply Forall_app. split; [exact H | exact Hfetched].
    + set (src := entry_source_text w cfg past e) in *.
      assert (Hkeep : forall k rec, translated_cache conn !! k = Some rec ->
                translated rec <> [] -> k <> key_of cfg src).
      { intros k rec Hk Hrec ->. apply Hmiss, cached_nonempty_record. eauto. }
      assert (Hmono : forall k, is_Some (translated_cache conn !! k) ->
                is_Some (<[key_of cfg src :=
                   {| created_at := utcnow_isoformat w;
                      translator := translator_name cfg;
                      target_lang := cfg_target_lang cfg;
                      source_len := len src;
                      translated := t |}]> (translated_cache conn) !! k)).
      { intros k Hk. apply lookup_insert_is_Some.
        destruct (decide (key_of cfg src = k)); auto. }
      cbn. split; [|split].
      * intros k rec Hk Hrec. rewrite lookup_insert_ne; [exact Hk|].
        intros E. now apply (Hkeep k rec Hk Hrec).
      * exact Hmono.
      * intros H. apply Forall_app. split; [|apply Forall_app; split].
        -- eapply Forall_impl; [exact H|]. intros [| |text lang]; cbn; auto.
           intros [Hs Hn]. split; [now apply Hmono|]. intros Htext.
           apply cached_nonempty_record.
           destruct (proj1 (cached_nonempty_record _ _) (Hn Htext))
             as (rec & Hk & Hrec).
           exists rec. split; [|exact Hrec]. cbn.
           rewrite lookup_insert_ne; [exact Hk|].
           intros E. now apply (Hkeep _ rec Hk Hrec).
        -- exact Hfetched.
        -- constructor; [|constructor]. cbn. split.
           ++ rewrite lookup_insert_eq. eauto.
           ++ intros Hsrc. apply cached_nonempty_record. cbn.
              rewrite lookup_insert_eq. eexists. split; [reflexivity|].
              cbn. now apply Hne.
Qed.


Lemma count_events_app (p : Event -> bool) (a b : list Event) :
  count_events p (a ++ b) = (count_events p a + count_events p b)%nat.
Proof.
  unfold count_events. now rewrite List.filter_app, length_app.
Qed.


Lemma replace1_no_newline (s : str) :
  forallb not_newline (replace1 NL BR s) = true.
Proof.
  unfold replace1. induction s as [|c s IH]; [reflexivity|].
  cbn [flat_map]. rewrite forallb_app, IH, andb_true_r.
  destruct (c =? NL) eqn:E; [reflexivity|].
  cbn. unfold not_newline. now rewrite E.
Qed.

Lemma build_description_no_newline (translated source_text : str) :
  forallb not_newline (build_description translated source_text) = true.
Proof.
  unfold build_description.
  rewrite !forallb_app, !replace1_no_newline. reflexivity.
Qed.


Lemma process_entries_guids (w : World) (cfg : Config)
    (entries : list Entry) (conn : DB) (past : list Event) :
  sublist (List.map item_guid (process_entries w cfg conn past entries).2)
          (List.map entry_id entries).
Proof.
  revert conn past. induction entries as [|e rest IH]; intros conn past.
  - cbn. constructor.
  - cbn [process_entries List.map].
    destruct (is_seen conn (entry_id e)) eqn:Hseen.
    + rewrite process_entry_seen by assumption.
      specialize (IH conn past).
      destruct (process_entries w cfg conn past rest) as [[c2 p2] items].
      cbn [snd] in *. now constructor.
    + rewrite (process_entry_unseen _ _ _ _ _ Hseen).
      match goal with
      | |- context [process_entries w cfg ?c ?p rest] =>
          specialize (IH c p);
          destruct (process_entries w cfg c p rest) as [[c2 p2] items]
      end.
      cbn [snd List.map] in *. rewrite make_item_guid. now constructor.
Qed.

Lemma cap_entries_length (entries : list Entry) (max_items : Z) :
  (0 <= max_items)%Z ->
  (length (cap_entries entries max_items) <= Z.to_nat max_items)%nat.
Proof.
  intros H. unfold cap_entries.
  destruct (max_items <? 0)%Z eqn:E; [lia|].
  rewrite length_firstn. lia.
Qed.



(** ** parse_opml and the feed filter *)

Lemma dedupe_urls_spec (feeds : list (str * str)) (seen : gset str)
    (f : str * str) :
  f ∈ dedupe_urls seen feeds
  <-> (f.2 ∉ seen)
      /\ exists pre post, feeds = pre ++ f :: post
                          /\ f.2 ∉ (List.map snd pre).
Proof.
  revert seen. induction feeds as [|f0 rest IH]; intros seen.
  - cbn. split.
    + intros H. now apply elem_of_nil in H.
    + intros (_ & pre & post & E & _). now destruct pre.
  - cbn [dedupe_urls]. destruct (decide (f0.2 ∈ seen)) as [Hin|Hout].
    + rewrite IH. split.
      * intros (Hf & pre & post & -> & Hpre). split; [exact Hf|].
        exists (f0 :: pre), post. split; [reflexivity|].
        cbn [List.map]. apply not_elem_of_cons. split; [|exact Hpre].
        intros E. apply Hf. now rewrite E.
      * intros (Hf & pre & post & E & Hpre). split; [exact Hf|].
        destruct pre as [|p pre]; cbn in E; injection E as <- ->.
        -- contradiction.
        -- exists pre, post. split; [reflexivity|].
           cbn [List.map] in Hpre. now apply not_elem_of_cons in Hpre.
    + rewrite elem_of_cons, IH. split.
      * intros [->|(Hf & pre & post & -> & Hpre)].
        -- split; [exact Hout|]. exists [], rest.
           split; [reflexivity | apply not_elem_of_nil].
        -- apply not_elem_of_union in Hf as [Hne Hf].
           split; [exact Hf|]. exists (f0 :: pre), post.
           split; [reflexivity|]. cbn [List.map].
           apply not_elem_of_cons. split; [|exact Hpre].
           intros E. apply Hne. now apply elem_of_singleton.
      * intros (Hf & pre & post & E & Hpre).
        destruct pre as [|p pre]; cbn in E; injection E as <- ->.
        -- now left.
        -- right. cbn [List.map] in Hpre.
           apply not_elem_of_cons in Hpre as [Hne Hpre]. split.
           ++ apply not_elem_of_union. split; [|exact Hf].
              intros E. now apply elem_of_singleton in E.
           ++ now exists pre, post.
Qed.

Lemma dedupe_urls_NoDup (feeds : list (str * str)) (seen : gset str) :
  NoDup (List.map snd (dedupe_urls seen feeds)).
Proof.
  revert seen. induction feeds as [|f0 rest IH]; intros seen.
  - constructor.
  - cbn [dedupe_urls]. destruct (decide (f0.2 ∈ seen)); [apply IH|].
    cbn [List.map]. constructor; [|apply IH].
    intros Hin. apply list_elem_of_fmap in Hin as (f & E & Hf).
    apply dedupe_urls_spec in Hf as [Hf _]. apply Hf.
    apply elem_of_union_l, elem_of_singleton. now symmetry.
Qed.

Lemma dedupe_urls_sublist (feeds : list (str * str)) (seen : gset str) :
  sublist (dedupe_urls seen feeds) feeds.
Proof.
  revert seen. induction feeds as [|f0 rest IH]; intros seen.
  - constructor.
  - cbn [dedupe_urls]. destruct (decide (f0.2 ∈ seen)).
    + apply sublist_cons, IH.
    + apply sublist_skip, IH.
Qed.

Lemma collect_feeds_app (str_lower : str -> str) (a b : list Element) :
  collect_feeds str_lower (a ++ b)
  = collect_feeds str_lower a ++ collect_feeds str_lower b.
Proof.
  induction a as [|el a IH]; [reflexivity|].
  cbn [app collect_feeds]. destruct (outline_feed str_lower el);
    cbn [app]; now rewrite IH.
Qed.

Lemma collect_feeds_elem (str_lower : str -> str) (elements : list Element)
    (f : str * str) :
  f ∈ collect_feeds str_lower elements
  <-> exists el, el ∈ elements /\ outline_feed str_lower el = Some f.
Proof.
  induction elements as [|el rest IH].
  - cbn. split.
    + intros H. now apply elem_of_nil in H.
    + intros (el & H & _). now apply elem_of_nil in H.
  - cbn [collect_feeds]. destruct (outline_feed str_lower el) as [f0|] eqn:E.
    + rewrite elem_of_cons, IH. split.
      * intros [->|(el' & H & H')].
        -- exists el. split; [apply list_elem_of_here | exact E].
        -- exists el'. split; [now apply list_elem_of_further | exact H'].
      * intros (el' & H & H'). apply elem_of_cons in H as [->|H].
        -- left. congruence.
        -- right. eauto.
    + rewrite IH. split.
      * intros (el' & H & H').
        exists el'. split; [now apply list_elem_of_further | exact H'].
      * intros (el' & H & H'). apply elem_of_cons in H as [->|H].
        -- congruence.
        -- eauto.
Qed.

(** How a prefix of the collected feeds arises from a prefix of the
    elements. *)
Lemma collect_feeds_split (str_lower : str -> str) (elements : list Element)
    (pre post : list (str * str)) (f : str * str) :
  collect_feeds str_lower elements = pre ++ f :: post ->
  exists epre el epost,
    elements = epre ++ el :: epost
    /\ outline_feed str_lower el = Some f
    /\ collect_feeds str_lower epre = pre.
Proof.
  revert pre. induction elements as [|el rest IH]; intros pre E.
  - now destruct pre.
  - cbn [collect_feeds] in E.
    destruct (outline_feed str_lower el) as [f0|] eqn:Hel.
    + destruct pre as [|p pre]; cbn in E; injection E as -> E.
      * exists [], el, rest. now repeat split.
      * destruct (IH pre E) as (epre & el' & epost & -> & H1 & H2).
        exists (el :: epre), el', epost. cbn [collect_feeds app].
        rewrite Hel, H2. now repeat split.
    + destruct (IH pre E) as (epre & el' & epost & -> & H1 & H2).
      exists (el :: epre), el', epost. cbn [collect_feeds app].
      rewrite Hel. now repeat split.
Qed.

Lemma py_or_default (a : option str) (d : str) :
  d <> [] -> or_empty (py_or a (Some d)) <> [].
Proof.
  intros Hd. destruct a as [[|c s]|]; cbn; easy.
Qed.

Lemma outline_feed_some (str_lower : str -> str) (el : Element)
    (f : str * str) :
  outline_feed str_lower el = Some f ->
  ends_with (lit "outline") (str_lower (el_tag el)) = true
  /\ f.1 <> [] /\ f.2 <> []
  /\ (el_attrib el !! lit "xmlUrl" = Some f.2
      \/ el_attrib el !! lit "xmlurl" = Some f.2).
Proof.
  unfold outline_feed.
  destruct (ends_with _ _); [|discriminate].
  destruct (truthy _) eqn:Hurl; [|discriminate].
  intros [= <-]. cbn [fst snd]. split; [reflexivity|]. split.
  { apply py_or_default. discriminate. }
  split.
  { intros E. rewrite E in Hurl. discriminate. }
  revert Hurl.
  generalize (el_attrib el !! lit "xmlUrl") (el_attrib el !! lit "xmlurl").
  intros [[|c s]|] [[|c' s']|]; cbn; try discriminate; intros _;
    solve [now left | now right].
Qed.

(** X15: the feed list parse_opml returns has pairwise distinct URLs;
    every feed in it has a non-empty title and a non-empty URL, which is
    the xmlUrl (or xmlurl) attribute of an element whose lowercased tag
    ends with outline; and it holds exactly the URLs of such elements, in
    the order of the file. *)
Theorem parse_opml_feeds (str_lower : str -> str)
    (elements : list Element) :
  let feeds := parse_opml str_lower elements in
  NoDup (List.map snd feeds)
  /\ sublist feeds (collect_feeds str_lower elements)
  /\ Forall
       (fun f => f.1 <> [] /\ f.2 <> []
          /\ exists el, el ∈ elements
               /\ ends_with (lit "outline") (str_lower (el_tag el)) = true
               /\ (el_attrib el !! lit "xmlUrl" = Some f.2
                   \/ el_attrib el !! lit "xmlurl" = Some f.2))
       feeds
  /\ (forall el f, el ∈ elements -> outline_feed str_lower el = Some f ->
        f.2 ∈ List.map snd feeds).
Proof.
  intros feeds. subst feeds. unfold parse_opml.
  split; [apply dedupe_urls_NoDup|]. split; [apply dedupe_urls_sublist|].
  split.
  - apply Forall_forall. intros f Hf.
    apply dedupe_urls_spec in Hf as (_ & pre & post & E & _).
    assert (Hin : f ∈ collect_feeds str_lower elements).
    { rewrite E. apply elem_of_app. right. apply list_elem_of_here. }
    apply collect_feeds_elem in Hin as (el & Hel & Hf).
    apply outline_feed_some in Hf as (H1 & H2 & H3 & H4). eauto 10.
  - intros el f Hel Hf.
    assert (Hin : f ∈ collect_feeds str_lower elements).
    { apply collect_feeds_elem. eauto. }
    assert (Hfirst : forall l : list (str * str), f ∈ l ->
              exists pre g post, l = pre ++ g :: post /\ g.2 = f.2
                                 /\ f.2 ∉ (List.map snd pre)).
    { clear. intros l. induction l as [|g l IH]; intros H.
      - now apply elem_of_nil in H.
      - destruct (decide (g.2 = f.2)) as [E|Hne].
        + exists [], g, l. split; [reflexivity|].
          split; [exact E | apply not_elem_of_nil].
        + apply elem_of_cons in H as [->|H]; [congruence|].
          destruct (IH H) as (pre & g' & post & -> & E & Hpre).
          exists (g :: pre), g', post. split; [reflexivity|].
          split; [exact E|]. cbn [List.map].
          apply not_elem_of_cons. split; [congruence | exact Hpre]. }
    destruct (Hfirst _ Hin) as (pre & g & post & E & Eg & Hpre).
    apply list_elem_of_fmap. exists g. split; [now symmetry|].
    apply dedupe_urls_spec. split; [apply not_elem_of_empty|].
    exists pre, post. split; [exact E | now rewrite Eg].
Qed.

(** X16: deduplication keeps the first title: a feed (title, URL) is in
    the list parse_opml returns exactly when some element of the file
    gives it and no element before that one gives a feed with the same
    URL. *)
Theorem parse_opml_first_title (str_lower : str -> str)
    (elements : list Element) (title url : str) :
  (title, url) ∈ parse_opml str_lower elements
  <-> exists pre el post,
        elements = pre ++ el :: post
        /\ outline_feed str_lower el = Some (title, url)
        /\ Forall (fun el' => forall t,
                     outline_feed str_lower el' <> Some (t, url)) pre.
Proof.
  unfold parse_opml. rewrite dedupe_urls_spec. cbn [snd]. split.
  - intros (_ & pre & post & E & Hpre).
    destruct (collect_feeds_split _ _ _ _ _ E)
      as (epre & el & epost & -> & Hel & <-).
    exists epre, el, epost. split; [reflexivity|]. split; [exact Hel|].
    apply Forall_forall. intros el' Hin t Hel'. apply Hpre.
    apply list_elem_of_fmap. exists (t, url). split; [reflexivity|].
    apply collect_feeds_elem. eauto.
  - intros (pre & el & post & -> & Hel & Hpre).
    split; [apply not_elem_of_empty|].
    exists (collect_feeds str_lower pre), (collect_feeds str_lower post).
    split.
    + rewrite collect_feeds_app. cbn [collect_feeds]. now rewrite Hel.
    + intros Hin. apply list_elem_of_fmap in Hin as ([t u] & E & Hin).
      cbn in E. subst u. apply collect_feeds_elem in Hin as (el' & H1 & H2).
      rewrite Forall_forall in Hpre. now apply (Hpre el' H1 t).
Qed.

Lemma strip_prefix_some (p s r : str) :
  strip_prefix p s = Some r -> s = p ++ r.
Proof.
  revert s. induction p as [|c p IH]; intros s.
  - destruct s; cbn; now intros [= ->].
  - destruct s as [|c' s]; cbn [strip_prefix]; [discriminate|].
    destruct (c' =? c) eqn:E; [|discriminate].
    apply N.eqb_eq in E. subst c'. intros H. cbn. f_equal. now apply IH.
Qed.

Lemma contains_spec (pat s : str) :
  contains pat s = true <-> exists a b, s = a ++ pat ++ b.
Proof.
  split.
  - induction s as [|c s IH]; cbn [contains].
    + destruct (strip_prefix pat []) as [r|] eqn:E; [|discriminate].
      intros _. exists [], r. exact (strip_prefix_some _ _ _ E).
    + destruct (strip_prefix pat (c :: s)) as [r|] eqn:E.
      * intros _. exists [], r. exact (strip_prefix_some _ _ _ E).
      * intros H. destruct (IH H) as (a & b & ->). now exists (c :: a), b.
  - intros (a & b & ->). induction a as [|c a IH].
    + cbn [app]. destruct (pat ++ b) eqn:E; cbn [contains];
        rewrite <- E, strip_prefix_app; reflexivity.
    + cbn [app contains]. now destruct (strip_prefix pat _).
Qed.

Lemma list_filter_sublist {A : Type} (p : A -> bool) (l : list A) :
  sublist (List.filter p l) l.
Proof.
  induction l as [|x l IH]; [constructor|].
  cbn [List.filter]. destruct (p x); now constructor.
Qed.

(** X17: the --only_lang_ceid filter keeps exactly the feeds whose URL
    contains the given text, in their order (all of them when it is
    empty), so the feeds main goes through still have pairwise distinct
    URLs. *)
Theorem select_feeds_spec (str_lower : str -> str) (only_lang_ceid : str)
    (elements : list Element) :
  let feeds := parse_opml str_lower elements in
  let selected := select_feeds only_lang_ceid feeds in
  sublist selected feeds
  /\ NoDup (List.map snd selected)
  /\ (forall f, f ∈ selected
        <-> f ∈ feeds /\ exists a b, f.2 = a ++ only_lang_ceid ++ b).
Proof.
  intros feeds selected.
  assert (Hsub : sublist selected feeds).
  { subst selected. unfold select_feeds.
    destruct (truthy only_lang_ceid); [|reflexivity].
    apply list_filter_sublist. }
  split; [exact Hsub|]. split.
  - eapply sublist_NoDup; [apply dedupe_urls_NoDup|].
    apply (fmap_sublist snd _ _ Hsub).
  - intros f. subst selected. unfold select_feeds.
    destruct only_lang_ceid as [|c s] eqn:E; cbn [truthy].
    + split; [|tauto]. intros H. split; [exact H|]. now exists [], f.2.
    + rewrite <- E. rewrite list_elem_of_In, filter_In, <- list_elem_of_In.
      rewrite contains_spec. tauto.
Qed.

(** ** slugify and the file names *)

Lemma alnum_not_hyphen (c : N) :
  is_slug_alnum c = true -> is_hyphen c = false.
Proof.
  unfold is_slug_alnum, is_hyphen, HYPHEN. intros H.
  destruct (N.eqb_spec c 45) as [->|]; [discriminate H | reflexivity].
Qed.

Lemma is_hyphen_eq (c : N) : is_hyphen c = true -> c = HYPHEN.
Proof. apply N.eqb_eq. Qed.

Lemma sub_non_alnum_ok (s : str) (b : bool) :
  slug_ok b (sub_non_alnum b s) = true.
Proof.
  revert b. induction s as [|c s IH]; intros b; [reflexivity|].
  cbn [sub_non_alnum]. destruct (is_slug_alnum c) eqn:Hc.
  - cbn [slug_ok]. now rewrite (alnum_not_hyphen c Hc), Hc, IH.
  - destruct b; [apply IH|]. cbn [slug_ok].
    change (is_hyphen HYPHEN) with true. cbn. apply IH.
Qed.

Lemma sub_non_alnum_fixed (s : str) (b : bool) :
  slug_ok b s = true -> sub_non_alnum b s = s.
Proof.
  revert b. induction s as [|c s IH]; intros b; [reflexivity|].
  cbn [slug_ok sub_non_alnum]. destruct (is_hyphen c) eqn:Hh.
  - intros H. apply andb_prop in H as [Hb H].
    destruct b; [discriminate|].
    destruct (is_slug_alnum c) eqn:Hc.
    { apply alnum_not_hyphen in Hc. congruence. }
    apply is_hyphen_eq in Hh. subst c. f_equal. now apply IH.
  - intros H. apply andb_prop in H as [Hc H]. rewrite Hc.
    f_equal. now apply IH.
Qed.

Lemma sub_hyphen_runs_fixed (s : str) (b : bool) :
  slug_ok b s = true -> sub_hyphen_runs b s = s.
Proof.
  revert b. induction s as [|c s IH]; intros b; [reflexivity|].
  cbn [slug_ok sub_hyphen_runs]. destruct (is_hyphen c) eqn:Hh.
  - intros H. apply andb_prop in H as [Hb H].
    destruct b; [discriminate|].
    apply is_hyphen_eq in Hh. subst c. f_equal. now apply IH.
  - intros H. apply andb_prop in H as [Hc H]. f_equal. now apply IH.
Qed.

Lemma slug_ok_weaken (s : str) (b : bool) :
  slug_ok b s = true -> slug_ok false s = true.
Proof.
  destruct s as [|c s]; [reflexivity|]. cbn [slug_ok].
  destruct (is_hyphen c); [|easy].
  intros H. apply andb_prop in H as [_ H]. exact H.
Qed.

Lemma slug_ok_app_l (x y : str) (b : bool) :
  slug_ok b (x ++ y) = true -> slug_ok b x = true.
Proof.
  revert b. induction x as [|c x IH]; intros b; [reflexivity|].
  cbn [app slug_ok]. destruct (is_hyphen c).
  - intros H. apply andb_prop in H as [-> H]. now apply IH.
  - intros H. apply andb_prop in H as [-> H]. now apply IH.
Qed.

Lemma slug_ok_app_r (x y : str) (b : bool) :
  slug_ok b (x ++ y) = true -> slug_ok false y = true.
Proof.
  revert b. induction x as [|c x IH]; intros b.
  - apply slug_ok_weaken.
  - cbn [app slug_ok]. destruct (is_hyphen c);
      intros H; apply andb_prop in H as [_ H]; now apply IH in H.
Qed.

Lemma slug_ok_chars (s : str) (b : bool) :
  slug_ok b s = true -> forallb slug_char s = true.
Proof.
  revert b. induction s as [|c s IH]; intros b; [reflexivity|].
  cbn [slug_ok forallb]. unfold slug_char at 1.
  destruct (is_hyphen c); intros H; apply andb_prop in H as [Hc H];
    rewrite (IH _ H).
  - now rewrite orb_true_r.
  - now rewrite Hc.
Qed.

Lemma slug_ok_no_double_hyphen (s : str) (b : bool) :
  slug_ok b s = true -> contains [HYPHEN; HYPHEN] s = false.
Proof.
  revert b. induction s as [|c s IH]; intros b; [reflexivity|].
  cbn [slug_ok contains strip_prefix]. fold (is_hyphen c).
  destruct (is_hyphen c) eqn:Hc.
  - intros H. apply andb_prop in H as [_ H].
    destruct s as [|c2 s]; [reflexivity|]. fold (is_hyphen c2).
    destruct (is_hyphen c2) eqn:Hc2.
    + cbn [slug_ok] in H. rewrite Hc2 in H. discriminate.
    + now apply IH in H.
  - intros H. apply andb_prop in H as [_ H]. now apply IH in H.
Qed.

Lemma lstrip_by_spec (p : N -> bool) (s : str) :
  exists a, s = a ++ lstrip_by p s.
Proof.
  induction s as [|c s (a & E)]; [now exists []|].
  cbn [lstrip_by]. destruct (p c).
  - exists (c :: a). cbn. now f_equal.
  - now exists [].
Qed.

Lemma lstrip_by_head (p : N -> bool) (s : str) (c : N) (r : str) :
  lstrip_by p s = c :: r -> p c = false.
Proof.
  induction s as [|c0 s IH]; cbn [lstrip_by]; [discriminate|].
  destruct (p c0) eqn:Hc; [exact IH|].
  now intros [= -> _].
Qed.

Lemma lstrip_by_fixed (p : N -> bool) (s : str) :
  (forall c r, s = c :: r -> p c = false) -> lstrip_by p s = s.
Proof.
  destruct s as [|c r]; [reflexivity|]. intros H. cbn [lstrip_by].
  now rewrite (H c r eq_refl).
Qed.

Lemma strip_by_spec (p : N -> bool) (s : str) :
  exists a b, s = a ++ strip_by p s ++ b
    /\ (forall c r, strip_by p s = c :: r -> p c = false)
    /\ (forall r c, strip_by p s = r ++ [c] -> p c = false).
Proof.
  destruct (lstrip_by_spec p s) as (a & Ea).
  destruct (lstrip_by_spec p (rev (lstrip_by p s))) as (b' & Eb).
  assert (Et : lstrip_by p s = strip_by p s ++ rev b').
  { unfold strip_by. rewrite <- rev_app_distr, <- Eb.
    now rewrite rev_involutive. }
  exists a, (rev b'). split; [now rewrite <- Et|]. split.
  - intros c r E. rewrite E in Et. cbn in Et.
    now apply lstrip_by_head in Et.
  - intros r c E. unfold strip_by in E.
    apply (f_equal (@rev N)) in E.
    rewrite rev_involutive, rev_app_distr in E. cbn in E.
    now apply lstrip_by_head in E.
Qed.

Lemma strip_by_fixed (p : N -> bool) (s : str) :
  (forall c r, s = c :: r -> p c = false) ->
  (forall r c, s = r ++ [c] -> p c = false) ->
  strip_by p s = s.
Proof.
  intros Hhead Hlast. unfold strip_by. rewrite (lstrip_by_fixed p s Hhead).
  rewrite lstrip_by_fixed; [apply rev_involutive|].
  intros c r E. apply (Hlast (rev r) c).
  rewrite <- (rev_involutive s), E. reflexivity.
Qed.

Lemma forallb_last {A : Type} (p : A -> bool) (r : list A) (c : A) :
  forallb p (r ++ [c]) = true -> p c = true.
Proof.
  rewrite forallb_app. cbn. intros H. apply andb_prop in H as [_ H].
  now rewrite andb_true_r in H.
Qed.

(** What slugify returns, in the form the proofs below use. *)
Lemma slugify_ok (str_lower : str -> str) (s : str) :
  let r := slugify str_lower s in
  r <> [] /\ slug_ok false r = true
  /\ (forall c t, r = c :: t -> is_hyphen c = false)
  /\ (forall t c, r = t ++ [c] -> is_hyphen c = false).
Proof.
  unfold slugify.
  set (s2 := sub_non_alnum false (str_lower (strip s))).
  pose proof (sub_non_alnum_ok (str_lower (strip s)) false) as Hok.
  fold s2 in Hok. rewrite (sub_hyphen_runs_fixed s2 false Hok).
  destruct (strip_by_spec is_hyphen s2) as (a & b & E & Hhead & Hlast).
  destruct (strip_by is_hyphen s2) as [|c r] eqn:Er; cbn [truthy].
  - split; [discriminate|]. split; [reflexivity|]. split.
    + now intros c t [= <- _].
    + intros t c Et.
      assert (H : forallb (fun c => negb (is_hyphen c)) (t ++ [c]) = true)
        by now rewrite <- Et.
      apply forallb_last in H. now destruct (is_hyphen c).
  - split; [discriminate|]. split; [|now split].
    rewrite E in Hok. apply slug_ok_app_r in Hok.
    now apply slug_ok_app_l in Hok.
Qed.

(** X18: a slug is never empty, is made of the characters a-z, 0-9 and
    the hyphen only, holds no two hyphens in a row and neither begins nor
    ends with a hyphen, whatever the title and whatever lower-casing
    does. *)
Theorem slugify_shape (str_lower : str -> str) (s : str) :
  let r := slugify str_lower s in
  r <> []
  /\ forallb slug_char r = true
  /\ contains (lit "--") r = false
  /\ (forall c t, r = c :: t -> c <> HYPHEN)
  /\ (forall t c, r = t ++ [c] -> c <> HYPHEN).
Proof.
  destruct (slugify_ok str_lower s) as (Hne & Hok & Hhead & Hlast).
  cbn zeta. split; [exact Hne|]. split; [now apply slug_ok_chars in Hok|].
  split; [exact (slug_ok_no_double_hyphen _ _ Hok)|]. split.
  - intros c t E ->. now apply Hhead in E.
  - intros t c E ->. now apply Hlast in E.
Qed.

Lemma slug_char_not_space (c : N) : slug_char c = true -> isspace c = false.
Proof.
  intros H. assert (45 <= c <= 122) as Hc.
  { unfold slug_char, is_slug_alnum, is_hyphen, HYPHEN in H.
    destruct (N.eqb_spec c 45); [lia|].
    rewrite orb_false_r in H. apply orb_prop in H as [H|H];
      apply andb_prop in H as [H1 H2];
      apply N.leb_le in H1; apply N.leb_le in H2; lia. }
  unfold isspace.
  repeat match goal with
  | |- context [?a <=? ?b] =>
      first [ rewrite (proj2 (N.leb_le a b)) by lia
            | rewrite (proj2 (N.leb_gt a b)) by lia ]
  | |- context [?a =? ?b] => rewrite (proj2 (N.eqb_neq a b)) by lia
  end.
  reflexivity.
Qed.

(** X19: slugify is idempotent on its own results: once lower-casing
    leaves a slug as it is, as it does for these ASCII characters, the slug
    of a slug is the slug itself. *)
Theorem slugify_idempotent (str_lower : str -> str) (s : str) :
  str_lower (slugify str_lower s) = slugify str_lower s ->
  slugify str_lower (slugify str_lower s) = slugify str_lower s.
Proof.
  destruct (slugify_ok str_lower s) as (Hne & Hok & Hhead & Hlast).
  cbn zeta in *. set (r := slugify str_lower s) in *. intros Hlower.
  pose proof (slug_ok_chars _ _ Hok) as Hchars.
  assert (Hstrip : strip r = r).
  { apply strip_fixed.
    - intros c t E. apply slug_char_not_space.
      rewrite E in Hchars. cbn in Hchars. now apply andb_prop in Hchars.
    - intros t c E. apply slug_char_not_space.
      rewrite E in Hchars. now apply forallb_last in Hchars. }
  unfold slugify at 1. rewrite Hstrip, Hlower.
  rewrite (sub_non_alnum_fixed r false Hok).
  rewrite (sub_hyphen_runs_fixed r false Hok).
  rewrite (strip_by_fixed is_hyphen r Hhead Hlast).
  destruct r; [contradiction | reflexivity].
Qed.

Lemma slugify_idempotent_witness :
  ascii_lower (slugify ascii_lower (lit "  El Pais -- Ultimas Noticias! "))
  = slugify ascii_lower (lit "  El Pais -- Ultimas Noticias! ")
  /\ slugify ascii_lower
       (slugify ascii_lower (lit "  El Pais -- Ultimas Noticias! "))
     = lit "el-pais-ultimas-noticias".
Proof.
  assert (H : ascii_lower
                (slugify ascii_lower (lit "  El Pais -- Ultimas Noticias! "))
              = slugify ascii_lower (lit "  El Pais -- Ultimas Noticias! "))
    by (vm_compute; reflexivity).
  split; [exact H|].
  rewrite (slugify_idempotent ascii_lower _ H). vm_compute. reflexivity.
Defined.

Lemma split_on_absent (sep : N) (a : str) :
  forallb (fun c => negb (c =? sep)) a = true -> split_on sep a = [a].
Proof.
  induction a as [|c a IH]; [reflexivity|].
  cbn [forallb split_on]. intros H. apply andb_prop in H as [Hc H].
  destruct (c =? sep); [discriminate|]. now rewrite (IH H).
Qed.

Lemma split_on_app (sep : N) (a b : str) :
  forallb (fun c => negb (c =? sep)) a = true ->
  split_on sep (a ++ sep :: b) = a :: split_on sep b.
Proof.
  induction a as [|c a IH].
  - intros _. cbn [app split_on]. now rewrite N.eqb_refl.
  - cbn [forallb app split_on]. intros H. apply andb_prop in H as [Hc H].
    destruct (c =? sep); [discriminate|]. now rewrite (IH H).
Qed.

Lemma slug_char_not_dot (c : N) :
  slug_char c = true -> negb (c =? DOT) = true.
Proof.
  unfold slug_char, is_slug_alnum, is_hyphen, HYPHEN, DOT. intros H.
  destruct (N.eqb_spec c 46) as [->|]; [discriminate H | reflexivity].
Qed.

(** X20: the file name main writes for a feed is read back by
    build_translated_opml.py: it begins with the slug of the title and a
    dot, which is how that script finds it, and for a target language
    without a dot the second-to-last dot-separated part, which that script
    shows as the language, is the target language. *)
Theorem feed_filename_read_back (str_lower : str -> str)
    (title target_lang : str) :
  forallb (fun c => negb (c =? DOT)) target_lang = true ->
  let fn := feed_filename str_lower title target_lang in
  starts_with (slugify str_lower title ++ lit ".") fn = true
  /\ filename_language fn = Some target_lang.
Proof.
  intros Hlang fn. subst fn. unfold feed_filename. split.
  - unfold starts_with. rewrite app_assoc.
    now rewrite strip_prefix_app.
  - destruct (slugify_ok str_lower title) as (_ & Hok & _).
    cbn zeta in Hok. apply slug_ok_chars in Hok.
    assert (Hslug : forallb (fun c => negb (c =? DOT))
                      (slugify str_lower title) = true).
    { apply forallb_forall. intros c Hc. apply slug_char_not_dot.
      rewrite forallb_forall in Hok. now apply Hok. }
    unfold filename_language.
    change (lit ".") with [DOT]. change (lit ".xml") with (DOT :: lit "xml").
    cbn [app]. rewrite (split_on_app DOT _ _ Hslug).
    rewrite (split_on_app DOT _ _ Hlang).
    rewrite (split_on_absent DOT (lit "xml")) by reflexivity.
    reflexivity.
Qed.

Lemma feed_filename_read_back_witness :
  forallb (fun c => negb (c =? DOT)) (lit "en") = true
  /\ filename_language (feed_filename ascii_lower (lit "El Pais") (lit "en"))
     = Some (lit "en").
Proof.
  assert (H : forallb (fun c => negb (c =? DOT)) (lit "en") = true)
    by reflexivity.
  split; [exact H|].
  exact (proj2 (feed_filename_read_back ascii_lower (lit "El Pais")
                  (lit "en") H)).
Defined.

(** ** The backend's answer and the choice of the backend *)

Lemma strip_strip (s : str) : strip (strip s) = strip s.
Proof.
  destruct (strip_spec s) as (a & b & _ & _ & _ & Hhead & Hlast).
  now apply strip_fixed.
Qed.

Lemma lstrip_blank (s : str) :
  forallb isspace s = true -> lstrip s = [].
Proof.
  induction s as [|c s IH]; [reflexivity|].
  cbn [forallb lstrip]. intros H. apply andb_prop in H as [-> H]. now apply IH.
Qed.

Lemma strip_blank (s : str) : forallb isspace s = true -> strip s = [].
Proof.
  intros H. unfold strip. now rewrite (lstrip_blank s H).
Qed.

(** X21: the text translate returns for a response of the backend never
    begins or ends with whitespace. *)
Theorem response_text_trimmed (resp : ApiResponse) :
  strip (response_text resp) = response_text resp.
Proof.
  unfold response_text.
  destruct (truthy (or_empty (resp_output_text resp))); [apply strip_strip|].
  destruct (resp_output resp) as [items|]; [|reflexivity].
  destruct (all_strings (output_text_parts items)); [|reflexivity].
  apply strip_strip.
Qed.

(** X22: a blank output_text hides the rest of the response: when it is
    not empty but holds whitespace only, translate returns the empty
    string, whatever text the output parts hold. *)
Theorem response_text_blank (resp : ApiResponse) (out : str) :
  resp_output_text resp = Some out ->
  out <> [] ->
  forallb isspace out = true ->
  response_text resp = [].
Proof.
  intros E Hne Hblank. unfold response_text. rewrite E. cbn [or_empty].
  destruct out as [|c out]; [contradiction|]. cbn [truthy].
  now apply strip_blank.
Qed.

Lemma response_text_blank_witness :
  response_text
    {| resp_output_text := Some (lit " ");
       resp_output :=
         Some [ {| item_content :=
                     Some [ {| part_type := Some (lit "output_text");
                               part_text := TextStr (lit "Hola") |} ] |} ] |}
  = [].
Proof.
  apply (response_text_blank _ (lit " ")).
  - reflexivity.
  - discriminate.
  - reflexivity.
Defined.

(** X23: a run only starts with a usable backend: when pick_translator
    returns, the backend is openai, the model name is not empty, and the
    API key is not empty and has no whitespace around it; it is the
    --api_key argument when that is not empty. *)
Theorem pick_translator_started (str_lower : str -> str)
    (env_translator env_model env_api_key api_key_override : option str)
    (choice : TranslatorChoice) :
  pick_translator str_lower env_translator env_model env_api_key
    api_key_override = Started choice ->
  choice_name choice = lit "openai"
  /\ choice_model choice <> []
  /\ choice_api_key choice <> []
  /\ strip (choice_api_key choice) = choice_api_key choice
  /\ (or_empty api_key_override <> [] ->
      choice_api_key choice = strip (or_empty api_key_override)).
Proof.
  unfold pick_translator.
  destruct (bool_decide _) eqn:Hw; [|discriminate].
  apply bool_decide_eq_true in Hw.
  destruct (truthy _) eqn:Hkey; [|discriminate].
  intros [= <-]. cbn [choice_name choice_model choice_api_key].
  split; [exact Hw|]. split; [apply py_or_default; discriminate|].
  split; [intros E; rewrite E in Hkey; discriminate|].
  split; [apply strip_strip|].
  destruct api_key_override as [[|c k]|]; cbn; easy.
Qed.

Lemma pick_translator_started_witness :
  choice_api_key
    {| choice_name := lit "openai"; choice_model := lit "gpt-4.1-mini";
       choice_api_key := lit "sk-test" |}
  = strip (or_empty (Some (lit " sk-test "))).
Proof.
  destruct (pick_translator_started ascii_lower None None
              (Some (lit "sk-env")) (Some (lit " sk-test "))
              {| choice_name := lit "openai";
                 choice_model := lit "gpt-4.1-mini";
                 choice_api_key := lit "sk-test" |})
    as (_ & _ & _ & _ & H).
  - vm_compute. reflexivity.
  - apply H. discriminate.
Defined.
